(** * TwitchDropsMiner, Qt front end: rendezvous and close coordination

    A shallow embedding of the coordination logic of [gui_qt.py]:
    [GUIManager] ([close], [prevent_close], [coro_unless_closed],
    [wait_until_closed]), [LoginForm] ([_on_confirm], [clear],
    [_wait_for_confirm], [ask_login]), and the three small widgets
    [ConsoleOutput], [WebsocketStatus] and [QtImageCache].

    The program is single threaded: one asyncio loop interleaves the
    callbacks it has queued.  The loop is modelled by its queue of ready
    callbacks, run oldest first, and everything that reaches the program
    from outside (a click, typed text, a close request, the cancellation
    of a task, the loop running its next callback) is an [action]. *)

From Stdlib Require Import ZArith Lia List Ascii String.
From stdpp Require Import base tactics option list numbers strings gmap pretty.

Local Open Scope Z_scope.
Local Open Scope nat_scope.

(** ** Python values that travel through futures *)

Inductive exn :=
| ExitRequest          (* exceptions.ExitRequest *)
| ReloadRequest        (* exceptions.ReloadRequest *)
| CancelledError       (* asyncio.CancelledError *)
| InvalidStateError    (* asyncio.InvalidStateError *)
| RuntimeError         (* a StopIteration escaping a coroutine *)
| OtherError (name : string).

Inductive value :=
| PyNone
| PyTrue
| PyObj (n : Z).

(** How an awaited thing ends. *)
Inductive outcome :=
| Returned (v : value)
| Raised (e : exn).

(** What a coroutine of the program has done so far. *)
Inductive reply (A : Type) :=
| Return (a : A)
| Raise (e : exn)
| Suspended.
Arguments Return {A} a.
Arguments Raise {A} e.
Arguments Suspended {A}.

Global Instance exn_eq_dec : EqDecision exn.
Proof. solve_decision. Defined.
Global Instance value_eq_dec : EqDecision value.
Proof. solve_decision. Defined.
Global Instance outcome_eq_dec : EqDecision outcome.
Proof. solve_decision. Defined.

(** ** asyncio objects *)

(** [asyncio.Future]: its state and the [asyncio.wait] calls that have a
    done-callback on it (by call number). *)
Inductive future_state :=
| Pending
| Settled (o : outcome)      (* set_result / set_exception *)
| Cancelled.

Record future := Future {
  state : future_state;
  callbacks : list nat
}.

Definition done (s : future_state) : bool :=
  match s with Pending => false | _ => true end.

(** The task that [coro_unless_closed] makes out of
    [self._close_requested.wait()]. *)
Inductive wait_task :=
| Created          (* first step queued, [Event.wait] not entered yet *)
| Parked           (* suspended inside [Event.wait] on its waiter future *)
| Woken            (* waiter future resolved by [Event.set], wake-up queued *)
| Finished         (* [Event.wait] returned [True] *)
| Cancelling       (* [cancel()] requested, the task has yet to run *)
| CancelledTask.

(** One call of [GUIManager.coro_unless_closed]. *)
Record call := Call_ {
  awaited : nat;               (* the future passed as [coro] *)
  close_wait : wait_task;      (* the task around [_close_requested.wait()] *)
  woken : bool;                (* the waiter of [asyncio.wait] is done: the caller's wake-up is queued *)
  cancel_requested : bool;     (* [cancel()] was called on the awaiting task *)
  result : option outcome      (* [None] while the call is suspended *)
}.

(** One call of [GUIManager.wait_until_closed]. *)
Inductive direct := DParked | DWoken | DReturned.

(** Entries of [Event._waiters]. *)
Inductive waiter := OfCall (k : nat) | Direct (j : nat).

(** Callbacks in the loop's ready queue. *)
Inductive handle :=
| StepCloseWait (k : nat)     (* a step of the close-wait task of call [k] *)
| OnCompletion (k : nat)      (* [_on_completion] of the [asyncio.wait] of call [k] *)
| Wakeup (k : nat)            (* the task suspended in call [k] resumes *)
| WakeDirect (j : nat).       (* the task suspended in [wait_until_closed] resumes *)

Global Instance waiter_eq_dec : EqDecision waiter.
Proof. solve_decision. Defined.
Global Instance handle_eq_dec : EqDecision handle.
Proof. solve_decision. Defined.
Global Instance wait_task_eq_dec : EqDecision wait_task.
Proof. solve_decision. Defined.

(** Presentation-only effects of [ask_login], kept in order. *)
Inductive note :=
| StatusLoginRequired      (* self.update(_("gui", "login", "required"), None) *)
| Attention                (* self._manager.grab_attention(sound=False) *)
| PrintLoginRequest.       (* self._manager.print(_("gui", "login", "request")) *)

(** ** The state of the front end *)

Record world := World {
  ev_value : bool;                 (* GUIManager._close_requested._value *)
  ev_waiters : list waiter;        (* GUIManager._close_requested._waiters *)
  futures : list future;           (* every future created so far *)
  calls : list call;               (* every coro_unless_closed call so far *)
  directs : list direct;           (* every wait_until_closed call so far *)
  ready : list handle;             (* the loop's ready queue, oldest first *)
  login_text : string;             (* LoginForm._login *)
  password_text : string;          (* LoginForm._password *)
  token_text : string;             (* LoginForm._token *)
  confirm_enabled : bool;          (* LoginForm._confirm.isEnabled() *)
  confirm_future : option nat;     (* LoginForm._confirm_future *)
  journal : list note
}.

Definition with_ev_value (b : bool) (w : world) : world :=
  World b (ev_waiters w) (futures w) (calls w) (directs w) (ready w)
        (login_text w) (password_text w) (token_text w)
        (confirm_enabled w) (confirm_future w) (journal w).
Definition with_ev_waiters (l : list waiter) (w : world) : world :=
  World (ev_value w) l (futures w) (calls w) (directs w) (ready w)
        (login_text w) (password_text w) (token_text w)
        (confirm_enabled w) (confirm_future w) (journal w).
Definition with_futures (l : list future) (w : world) : world :=
  World (ev_value w) (ev_waiters w) l (calls w) (directs w) (ready w)
        (login_text w) (password_text w) (token_text w)
        (confirm_enabled w) (confirm_future w) (journal w).
Definition with_calls (l : list call) (w : world) : world :=
  World (ev_value w) (ev_waiters w) (futures w) l (directs w) (ready w)
        (login_text w) (password_text w) (token_text w)
        (confirm_enabled w) (confirm_future w) (journal w).
Definition with_directs (l : list direct) (w : world) : world :=
  World (ev_value w) (ev_waiters w) (futures w) (calls w) l (ready w)
        (login_text w) (password_text w) (token_text w)
        (confirm_enabled w) (confirm_future w) (journal w).
Definition with_ready (l : list handle) (w : world) : world :=
  World (ev_value w) (ev_waiters w) (futures w) (calls w) (directs w) l
        (login_text w) (password_text w) (token_text w)
        (confirm_enabled w) (confirm_future w) (journal w).
Definition with_login_text (s : string) (w : world) : world :=
  World (ev_value w) (ev_waiters w) (futures w) (calls w) (directs w) (ready w)
        s (password_text w) (token_text w)
        (confirm_enabled w) (confirm_future w) (journal w).
Definition with_password_text (s : string) (w : world) : world :=
  World (ev_value w) (ev_waiters w) (futures w) (calls w) (directs w) (ready w)
        (login_text w) s (token_text w)
        (confirm_enabled w) (confirm_future w) (journal w).
Definition with_token_text (s : string) (w : world) : world :=
  World (ev_value w) (ev_waiters w) (futures w) (calls w) (directs w) (ready w)
        (login_text w) (password_text w) s
        (confirm_enabled w) (confirm_future w) (journal w).
Definition with_confirm_enabled (b : bool) (w : world) : world :=
  World (ev_value w) (ev_waiters w) (futures w) (calls w) (directs w) (ready w)
        (login_text w) (password_text w) (token_text w)
        b (confirm_future w) (journal w).
Definition with_confirm_future (o : option nat) (w : world) : world :=
  World (ev_value w) (ev_waiters w) (futures w) (calls w) (directs w) (ready w)
        (login_text w) (password_text w) (token_text w)
        (confirm_enabled w) o (journal w).
Definition with_journal (l : list note) (w : world) : world :=
  World (ev_value w) (ev_waiters w) (futures w) (calls w) (directs w) (ready w)
        (login_text w) (password_text w) (token_text w)
        (confirm_enabled w) (confirm_future w) l.

(** A fresh [GUIManager] with its [LoginForm]: the event is unset, the
    confirm button disabled, no future in the slot. *)
Definition init : world :=
  World false [] [] [] [] [] ""%string ""%string ""%string false None [].

(** ** asyncio primitives *)

(** [loop.call_soon] *)
Definition schedule (h : handle) (w : world) : world :=
  with_ready (ready w ++ [h]) w.

Definition schedule_all (hs : list handle) (w : world) : world :=
  with_ready (ready w ++ hs) w.

Definition future_state_of (f : nat) (w : world) : future_state :=
  match futures w !! f with
  | Some c => state c
  | None => Pending
  end.

(** [loop.create_future()] *)
Definition create_future (w : world) : nat * world :=
  (length (futures w), with_futures (futures w ++ [Future Pending []]) w).

(** The common part of [set_result], [set_exception] and [cancel] on a
    pending future: the state changes and every done-callback is queued. *)
Definition complete_future (f : nat) (s : future_state) (w : world) : world :=
  match futures w !! f with
  | Some c =>
      match state c with
      | Pending =>
          schedule_all (map OnCompletion (callbacks c))
            (with_futures (<[f := Future s []]> (futures w)) w)
      | _ => w
      end
  | None => w
  end.

(** [Future.set_result]: raises [InvalidStateError] on a future that is
    already done. *)
Definition future_set_result (f : nat) (v : value) (w : world) : reply unit * world :=
  if done (future_state_of f w) then (Raise InvalidStateError, w)
  else (Return tt, complete_future f (Settled (Returned v)) w).

(** [Future.cancel]: no effect on a future that is already done. *)
Definition future_cancel (f : nat) (w : world) : world :=
  complete_future f Cancelled w.

(** [Future.add_done_callback]: queued at once when the future is done. *)
Definition add_done_callback (f k : nat) (w : world) : world :=
  match futures w !! f with
  | Some c =>
      if done (state c) then schedule (OnCompletion k) w
      else with_futures (<[f := Future (state c) (callbacks c ++ [k])]> (futures w)) w
  | None => w
  end.

(** [Future.remove_done_callback] *)
Definition remove_done_callback (f k : nat) (w : world) : world :=
  match futures w !! f with
  | Some c =>
      with_futures
        (<[f := Future (state c) (filter (λ k', k' ≠ k) (callbacks c))]> (futures w)) w
  | None => w
  end.

(** What [await fut] gives for a future that is done. *)
Definition future_outcome (f : nat) (w : world) : outcome :=
  match future_state_of f w with
  | Settled o => o
  | Cancelled => Raised CancelledError
  | Pending => Raised InvalidStateError
  end.

Definition set_close_wait (k : nat) (t : wait_task) (w : world) : world :=
  with_calls
    (alter (λ c, Call_ (awaited c) t (woken c) (cancel_requested c) (result c)) k (calls w)) w.

Definition set_woken (k : nat) (w : world) : world :=
  with_calls
    (alter (λ c, Call_ (awaited c) (close_wait c) true (cancel_requested c) (result c)) k (calls w)) w.

Definition set_cancel_requested (k : nat) (w : world) : world :=
  with_calls
    (alter (λ c, Call_ (awaited c) (close_wait c) (woken c) true (result c)) k (calls w)) w.

Definition set_result (k : nat) (o : outcome) (w : world) : world :=
  with_calls
    (alter (λ c, Call_ (awaited c) (close_wait c) (woken c) (cancel_requested c) (Some o)) k (calls w)) w.

Definition drop_waiter (x : waiter) (w : world) : world :=
  with_ev_waiters (filter (λ y, y ≠ x) (ev_waiters w)) w.

(** One waiter future of [Event.set]'s loop
    [for fut in self._waiters: if not fut.done(): fut.set_result(True)]:
    the task suspended on it gets its wake-up queued. *)
Definition wake_waiter (w : world) (x : waiter) : world :=
  match x with
  | OfCall k =>
      match calls w !! k with
      | Some c =>
          match close_wait c with
          | Parked => schedule (StepCloseWait k) (set_close_wait k Woken w)
          | _ => w
          end
      | None => w
      end
  | Direct j =>
      match directs w !! j with
      | Some DParked => schedule (WakeDirect j) (with_directs (<[j := DWoken]> (directs w)) w)
      | _ => w
      end
  end.

(** [asyncio.Event.set] *)
Definition event_set (w : world) : world :=
  if ev_value w then w
  else fold_left wake_waiter (ev_waiters w) (with_ev_value true w).

(** [asyncio.Event.clear] *)
Definition event_clear (w : world) : world := with_ev_value false w.

(** [asyncio.Event.is_set] *)
Definition event_is_set (w : world) : bool := ev_value w.

(** A step of the task running [Event.wait()] for call [k]:
<<
    if self._value: return True
    fut = self._get_loop().create_future()
    self._waiters.append(fut)
    try:
        await fut
        return True
    finally:
        self._waiters.remove(fut)
>>
    When the task finishes, its done-callback (the [_on_completion] of the
    call's [asyncio.wait]) is queued if it is still registered, that is
    while the call has not resumed. *)
Definition finish_close_wait (k : nat) (c : call) (w : world) : world :=
  let w := set_close_wait k Finished w in
  match result c with
  | None => schedule (OnCompletion k) w
  | Some _ => w
  end.

Definition step_close_wait (k : nat) (w : world) : world :=
  match calls w !! k with
  | Some c =>
      match close_wait c with
      | Created =>
          if ev_value w then finish_close_wait k c w
          else with_ev_waiters (ev_waiters w ++ [OfCall k]) (set_close_wait k Parked w)
      | Woken => finish_close_wait k c (drop_waiter (OfCall k) w)
      | Cancelling => set_close_wait k CancelledTask (drop_waiter (OfCall k) w)
      | _ => w
      end
  | None => w
  end.

(** [Task.cancel] on the close-wait task of call [k]. *)
Definition cancel_close_wait (k : nat) (w : world) : world :=
  match calls w !! k with
  | Some c =>
      match close_wait c with
      | Created | Woken => set_close_wait k Cancelling w
      | Parked => schedule (StepCloseWait k) (set_close_wait k Cancelling w)
      | _ => w
      end
  | None => w
  end.

(** [_on_completion] of [asyncio.wait(..., return_when=FIRST_COMPLETED)]:
    [if not waiter.done(): waiter.set_result(None)]. *)
Definition on_completion (k : nat) (w : world) : world :=
  match calls w !! k with
  | Some c =>
      match result c with
      | Some _ => w
      | None => if woken c then w else schedule (Wakeup k) (set_woken k w)
      end
  | None => w
  end.

(** ** GUIManager *)

(** [GUIManager.close_requested] *)
Definition close_requested (w : world) : bool := event_is_set w.

(** [GUIManager.close]: sets the event; [self._twitch.close()] belongs to
    the network client and touches nothing of this state; the value
    returned is the constant 0. *)
Definition close (w : world) : world := event_set w.

(** [GUIManager.prevent_close] *)
Definition prevent_close (w : world) : world := event_clear w.

(** [GUIManager.wait_until_closed], up to its suspension:
    [await self._close_requested.wait()] runs in the caller's own task. *)
Definition wait_until_closed (w : world) : world :=
  let j := length (directs w) in
  if ev_value w then with_directs (directs w ++ [DReturned]) w
  else with_ev_waiters (ev_waiters w ++ [Direct j]) (with_directs (directs w ++ [DParked]) w).

(** The same task resuming after [Event.set] resolved its waiter. *)
Definition wait_until_closed_resume (j : nat) (w : world) : world :=
  match directs w !! j with
  | Some DWoken => drop_waiter (Direct j) (with_directs (<[j := DReturned]> (directs w)) w)
  | _ => w
  end.

(** [GUIManager.coro_unless_closed], up to its suspension in
    [asyncio.wait]:
<<
    tasks = [asyncio.ensure_future(coro),
             asyncio.ensure_future(self._close_requested.wait())]
    done, pending = await asyncio.wait(tasks, return_when=asyncio.FIRST_COMPLETED)
>>
    [ensure_future] returns the future [f] as it is and queues the first
    step of a new task for [wait()]; [asyncio.wait] puts [_on_completion]
    on both and suspends the caller on its waiter. *)
Definition coro_unless_closed_enter (f : nat) (w : world) : nat * world :=
  let k := length (calls w) in
  let w := with_calls (calls w ++ [Call_ f Created false false None]) w in
  let w := schedule (StepCloseWait k) w in
  let w := add_done_callback f k w in
  (k, w).

(** [await next(iter(done))]: [coro_first] is the order in which Python
    iterates the set [done] when both members are in it. *)
Definition await_first_done (coro_first coro_done close_done : bool) (f : nat) (w : world)
  : outcome :=
  match coro_done, close_done with
  | true, true => if coro_first then future_outcome f w else Returned PyTrue
  | true, false => future_outcome f w
  | false, true => Returned PyTrue
  | false, false => Raised RuntimeError
  end.

(** [GUIManager.coro_unless_closed], from the moment [asyncio.wait] hands
    control back:
<<
    for task in pending:
        task.cancel()
    if self._close_requested.is_set():
        raise ExitRequest()
    return await next(iter(done))
>>
    A caller whose task was cancelled gets [CancelledError] out of
    [asyncio.wait] itself and runs none of these lines.  In both cases
    [asyncio.wait] first takes its [_on_completion] off both futures. *)
Definition coro_unless_closed_resume (coro_first : bool) (k : nat) (w : world) : world :=
  match calls w !! k with
  | Some c =>
      match result c with
      | Some _ => w
      | None =>
          let f := awaited c in
          let w := remove_done_callback f k w in
          if cancel_requested c then set_result k (Raised CancelledError) w
          else
            let coro_done := done (future_state_of f w) in
            let close_done := bool_decide (close_wait c = Finished) in
            let answer := await_first_done coro_first coro_done close_done f w in
            let w := if coro_done then w else future_cancel f w in
            let w := if close_done then w else cancel_close_wait k w in
            if event_is_set w then set_result k (Raised ExitRequest) w
            else set_result k answer w
      end
  | None => w
  end.

(** [Task.cancel] on the task suspended in call [k]: the waiter of
    [asyncio.wait] is cancelled, or, when the wake-up is already queued,
    the task is marked so that it resumes with [CancelledError]. *)
Definition cancel_caller (k : nat) (w : world) : world :=
  match calls w !! k with
  | Some c =>
      match result c with
      | Some _ => w
      | None =>
          let w := set_cancel_requested k w in
          if woken c then w else schedule (Wakeup k) (set_woken k w)
      end
  | None => w
  end.

(** ** LoginForm: the two callbacks of the form *)

(** [LoginForm._on_confirm]:
<<
    fut = self._confirm_future
    if fut is not None and not fut.done():
        fut.set_result(None)
>> *)
Definition on_confirm (w : world) : reply unit * world :=
  match confirm_future w with
  | Some fut =>
      if negb (done (future_state_of fut w)) then future_set_result fut PyNone w
      else (Return tt, w)
  | None => (Return tt, w)
  end.

(** [LoginForm.clear] *)
Definition clear (login password token : bool) (w : world) : world :=
  let clear_all := negb login && negb password && negb token in
  let w := if login || clear_all then with_login_text "" w else w in
  let w := if password || clear_all then with_password_text "" w else w in
  let w := if token || clear_all then with_token_text "" w else w in
  w.

(** ** What reaches the program from outside *)

Inductive field := Login | Password | Token.

Inductive action :=
| NewFuture                               (* some task creates a future *)
| Call (f : nat)                          (* some task awaits coro_unless_closed(f) *)
| WaitClosed                              (* some task awaits wait_until_closed() *)
| Complete (f : nat) (s : future_state)   (* whoever owns future [f] settles or cancels it *)
| Close                                   (* close(): window close event, SIGINT, SIGTERM *)
| PreventClose                            (* prevent_close() *)
| CancelCaller (k : nat)                  (* the task suspended in call [k] is cancelled *)
| Typing (fld : field) (text : string)    (* the user edits a line edit *)
| Click                                   (* the user clicks the confirm button *)
| Tick (coro_first : bool).               (* the loop runs its oldest ready callback *)

Definition run_handle (coro_first : bool) (h : handle) (w : world) : world :=
  match h with
  | StepCloseWait k => step_close_wait k w
  | OnCompletion k => on_completion k w
  | Wakeup k => coro_unless_closed_resume coro_first k w
  | WakeDirect j => wait_until_closed_resume j w
  end.

Definition typing (fld : field) (text : string) (w : world) : world :=
  match fld with
  | Login => with_login_text text w
  | Password => with_password_text text w
  | Token => with_token_text text w
  end.

(** A disabled button emits no [clicked] signal. *)
Definition exec (a : action) (w : world) : world :=
  match a with
  | NewFuture => snd (create_future w)
  | Call f => if decide (f < length (futures w)) then snd (coro_unless_closed_enter f w) else w
  | WaitClosed => wait_until_closed w
  | Complete f s => if done s then complete_future f s w else w
  | Close => close w
  | PreventClose => prevent_close w
  | CancelCaller k => cancel_caller k w
  | Typing fld text => typing fld text w
  | Click => if confirm_enabled w then snd (on_confirm w) else w
  | Tick coro_first =>
      match ready w with
      | [] => w
      | h :: rest => run_handle coro_first h (with_ready rest w)
      end
  end.

Definition run (sched : list action) (w : world) : world :=
  fold_left (λ w a, exec a w) sched w.

Definition call_result (k : nat) (w : world) : option outcome :=
  match calls w !! k with
  | Some c => result c
  | None => None
  end.

(** ** Python strings

    A [str] is modelled by a [string] whose characters are code points
    below 256; [len] is [String.length]. *)

(** [str.isspace] on one character: U+0009..U+000D, U+001C..U+001F,
    U+0020, U+0085, U+00A0. *)
Definition is_space (c : ascii) : bool :=
  let n := nat_of_ascii c in
  ((9 <=? n) && (n <=? 13)) || ((28 <=? n) && (n <=? 31))
  || (n =? 32) || (n =? 133) || (n =? 160).

(** [str.lstrip()] *)
Fixpoint lstrip (s : string) : string :=
  match s with
  | EmptyString => EmptyString
  | String c s' => if is_space c then lstrip s' else s
  end.

Definition rev_string (s : string) : string :=
  string_of_list_ascii (rev (list_ascii_of_string s)).

(** [str.strip()] *)
Definition strip (s : string) : string :=
  rev_string (lstrip (rev_string (lstrip s))).

(** The character class [[a-zA-Z0-9_]]. *)
Definition word_char (c : ascii) : bool :=
  let n := nat_of_ascii c in
  ((97 <=? n) && (n <=? 122)) || ((65 <=? n) && (n <=? 90))
  || ((48 <=? n) && (n <=? 57)) || (n =? 95).

(** The rest of [[a-zA-Z0-9_]+$] once one character of the class is read:
    more of them, then [$], which matches at the end of the string and
    also just before a newline that ends the string. *)
Fixpoint word_run_to_end (s : string) : bool :=
  match s with
  | EmptyString => true
  | String c s' =>
      if word_char c then word_run_to_end s'
      else bool_decide (c = "010"%char) && bool_decide (s' = EmptyString)
  end.

(** [re.match(r"^[a-zA-Z0-9_]+$", s)] is not [None]. *)
Definition re_match_username (s : string) : bool :=
  match s with
  | EmptyString => false
  | String c s' => word_char c && word_run_to_end s'
  end.

(** ** LoginForm: the login loop *)

Record LoginData := mkLoginData {
  username : string;
  password : string;
  token : string
}.

(** [try: body finally: cleanup] around a body that may stay suspended:
    the cleanup runs when the body returns or raises. *)
Definition try_finally {A} (body : world → reply A * world) (cleanup : world → world)
    (w : world) : reply A * world :=
  match body w with
  | (Suspended, w') => (Suspended, w')
  | (r, w') => (r, cleanup w')
  end.

(** The task is suspended in call [k]; [round] is what happens, in order,
    until the call ends.  Nothing that happens after the call has ended
    belongs to this suspension. *)
Fixpoint await_call (k : nat) (round : list action) (w : world) : reply value * world :=
  match call_result k w with
  | Some (Returned v) => (Return v, w)
  | Some (Raised e) => (Raise e, w)
  | None =>
      match round with
      | [] => (Suspended, w)
      | a :: rest => await_call k rest (exec a w)
      end
  end.

(** [await self._manager.coro_unless_closed(fut)] *)
Definition coro_unless_closed (fut : nat) (round : list action) (w : world)
  : reply value * world :=
  let (k, w) := coro_unless_closed_enter fut w in
  await_call k round w.

(** [LoginForm._wait_for_confirm]:
<<
    self._confirm_future = asyncio.get_running_loop().create_future()
    self._confirm.setEnabled(True)
    try:
        await self._manager.coro_unless_closed(self._confirm_future)
    finally:
        self._confirm.setEnabled(False)
        self._confirm_future = None
>> *)
Definition wait_for_confirm (round : list action) (w : world) : reply unit * world :=
  let (fut, w) := create_future w in
  let w := with_confirm_future (Some fut) w in
  let w := with_confirm_enabled true w in
  try_finally
    (λ w, match coro_unless_closed fut round w with
          | (Return _, w) => (Return tt, w)
          | (Raise e, w) => (Raise e, w)
          | (Suspended, w) => (Suspended, w)
          end)
    (λ w, with_confirm_future None (with_confirm_enabled false w))
    w.

Definition add_note (n : note) (w : world) : world :=
  with_journal (journal w ++ [n]) w.

(** How one pass through the body of [while True] ends: [continue], or
    the coroutine leaves the loop (returns, raises, or stays suspended). *)
Inductive pass :=
| Continue
| Leave (r : reply LoginData).

(** The body of the loop of [LoginForm.ask_login]:
<<
    self._manager.print(_("gui", "login", "request"))
    await self._wait_for_confirm()
    login_data = LoginData(
        self._login.text().strip(),
        self._password.text(),
        self._token.text().strip(),
    )
    if (not 3 <= len(login_data.username) <= 25) or not re.match(...):
        self.clear(login=True)
        continue
    if len(login_data.password) < 8:
        self.clear(password=True)
        continue
    if login_data.token and len(login_data.token) < 6:
        self.clear(token=True)
        continue
    return login_data
>> *)
Definition ask_login_pass (round : list action) (w : world) : pass * world :=
  let w := add_note PrintLoginRequest w in
  match wait_for_confirm round w with
  | (Return _, w) =>
      let login_data :=
        mkLoginData (strip (login_text w)) (password_text w) (strip (token_text w)) in
      if negb ((3 <=? String.length (username login_data))
               && (String.length (username login_data) <=? 25))
         || negb (re_match_username (username login_data))
      then (Continue, clear true false false w)
      else if String.length (password login_data) <? 8
      then (Continue, clear false true false w)
      else if negb (bool_decide (token login_data = EmptyString))
              && (String.length (token login_data) <? 6)
      then (Continue, clear false false true w)
      else (Leave (Return login_data), w)
  | (Raise e, w) => (Leave (Raise e), w)
  | (Suspended, w) => (Leave Suspended, w)
  end.

(** The loop, fed one round per suspension; with no round left the
    coroutine is suspended in [_wait_for_confirm] with nothing having
    happened yet. *)
Fixpoint ask_login_loop (rounds : list (list action)) (w : world)
  : reply LoginData * world :=
  match rounds with
  | [] => (Suspended, snd (ask_login_pass [] w))
  | round :: rest =>
      match ask_login_pass round w with
      | (Continue, w) => ask_login_loop rest w
      | (Leave r, w) => (r, w)
      end
  end.

(** [LoginForm.ask_login] *)
Definition ask_login (rounds : list (list action)) (w : world) : reply LoginData * world :=
  let w := add_note StatusLoginRequired w in
  let w := add_note Attention w in
  ask_login_loop rounds w.

(** ** ConsoleOutput *)

Module ConsoleOutput.

Definition newline : ascii := "010"%char.

(** ["\n" in message] *)
Fixpoint contains_newline (s : string) : bool :=
  match s with
  | EmptyString => false
  | String c s' => if decide (c = newline) then true else contains_newline s'
  end.

(** [message.replace("\n", by)] *)
Fixpoint replace_newline (by_ : string) (s : string) : string :=
  match s with
  | EmptyString => EmptyString
  | String c s' =>
      if decide (c = newline) then by_ +:+ replace_newline by_ s'
      else String c (replace_newline by_ s')
  end.

(** The text handed to [appendPlainText] by [ConsoleOutput.print]:
<<
  stamp = datetime.now().strftime("%X")
  if "\n" in message:
      message = message.replace("\n", f"\n{stamp}: ")
  self._output.appendPlainText(f"{stamp}: {message}")
>>
    [stamp] is what the clock and the locale give. *)
Definition rendered (stamp message : string) : string :=
  let message :=
    if contains_newline message
    then replace_newline (String newline (stamp +:+ ": ")) message
    else message in
  stamp +:+ ": " +:+ message.

(** [ConsoleOutput.print]: the widget keeps the texts appended to it. *)
Definition print (stamp message : string) (output : list string) : list string :=
  output ++ [rendered stamp message].

(** The lines of a text: [text.split("\n")]. *)
Fixpoint lines (s : string) : list string :=
  match s with
  | EmptyString => [EmptyString]
  | String c s' =>
      if decide (c = newline) then EmptyString :: lines s'
      else match lines s' with
           | l :: ls => String c l :: ls
           | [] => [String c EmptyString]
           end
  end.

End ConsoleOutput.

(** ** WebsocketStatus *)

Module WebsocketStatus.

Local Open Scope Z_scope.

Inductive outcome_ (A : Type) :=
| Fine (a : A)
| AttributeError.       (* [self._table.item(...)] gave [None] *)
Arguments Fine {A} a.
Arguments AttributeError {A}.

(** An entry of [self._items]: [{"status": ..., "topics": ...}]. *)
Record item := Item {
  status : string;
  topics : Z
}.

(** The cells of the table that hold an item, by (row, column), with
    their text; and the dictionary [self._items]. *)
Record widget := Widget {
  table : gmap (Z * Z) string;
  items : gmap Z item
}.

(** The entry that [update] stores for [idx]: what was given, and for
    what was not, the old value, or [""] and 0 without an old entry. *)
Definition merged (idx : Z) (new_status : option string) (new_topics : option Z)
    (w : widget) : item :=
  let old := default (Item EmptyString 0) (items w !! idx) in
  Item (default (status old) new_status) (default (topics old) new_topics).

Section Constants.
(** [constants.MAX_WEBSOCKETS] and [constants.WS_TOPICS_LIMIT] *)
Variable MAX_WEBSOCKETS : Z.
Variable WS_TOPICS_LIMIT : Z.

(** [self._table.item(row, col).setText(text)] *)
Definition set_text (row col : Z) (text : string) (t : gmap (Z * Z) string)
  : outcome_ (gmap (Z * Z) string) :=
  match t !! (row, col) with
  | Some _ => Fine (<[(row, col) := text]> t)
  | None => AttributeError
  end.

(** The loop of [WebsocketStatus.__init__]:
<<
for idx in range(MAX_WEBSOCKETS):
    self._table.setItem(idx, 0, QTableWidgetItem(str(idx)))
    self._table.setItem(idx, 1, QTableWidgetItem(""))
    self._table.setItem(idx, 2, QTableWidgetItem(""))
>> *)
Definition init : widget :=
  Widget
    (foldl (λ t idx, <[(idx, 2) := EmptyString]>
                       (<[(idx, 1) := EmptyString]>
                          (<[(idx, 0) := pretty idx]> t)))
           ∅ (seqZ 0 MAX_WEBSOCKETS))
    ∅.

(** [WebsocketStatus.update]:
<<
if idx < 0 or idx >= MAX_WEBSOCKETS:
    return
item = self._items.get(idx, {"status": "", "topics": 0})
if status is not None:
    item["status"] = status
if topics is not None:
    item["topics"] = topics
self._items[idx] = item
self._table.item(idx, 1).setText(item["status"])
self._table.item(idx, 2).setText(f"{item['topics']}/{WS_TOPICS_LIMIT}")
>> *)
Definition update (idx : Z) (new_status : option string) (new_topics : option Z)
    (w : widget) : outcome_ unit * widget :=
  if bool_decide (idx < 0) || bool_decide (idx >= MAX_WEBSOCKETS) then (Fine tt, w)
  else
    let it := default (Item EmptyString 0) (items w !! idx) in
    let it := match new_status with Some s => Item s (topics it) | None => it end in
    let it := match new_topics with Some n => Item (status it) n | None => it end in
    let w := Widget (table w) (<[idx := it]> (items w)) in
    match set_text idx 1 (status it) (table w) with
    | AttributeError => (AttributeError, w)
    | Fine t =>
        let w := Widget t (items w) in
        match set_text idx 2 (pretty (topics it) +:+ "/" +:+ pretty WS_TOPICS_LIMIT)
                       (table w) with
        | AttributeError => (AttributeError, w)
        | Fine t => (Fine tt, Widget t (items w))
        end
    end.

(** [WebsocketStatus.remove]:
<<
self._items.pop(idx, None)
if 0 <= idx < MAX_WEBSOCKETS:
    self._table.item(idx, 1).setText("")
    self._table.item(idx, 2).setText("")
>> *)
Definition remove (idx : Z) (w : widget) : outcome_ unit * widget :=
  let w := Widget (table w) (delete idx (items w)) in
  if bool_decide (0 <= idx) && bool_decide (idx < MAX_WEBSOCKETS) then
    match set_text idx 1 EmptyString (table w) with
    | AttributeError => (AttributeError, w)
    | Fine t =>
        let w := Widget t (items w) in
        match set_text idx 2 EmptyString (table w) with
        | AttributeError => (AttributeError, w)
        | Fine t => (Fine tt, Widget t (items w))
        end
    end
  else (Fine tt, w).

(** Every row of the table has its status and topics cells. *)
Definition rows_present (w : widget) : Prop :=
  ∀ idx, 0 ≤ idx < MAX_WEBSOCKETS →
         is_Some (table w !! (idx, 1)) ∧ is_Some (table w !! (idx, 2)).

End Constants.

End WebsocketStatus.

(** ** QtImageCache *)

Module QtImageCache.

Local Open Scope Z_scope.

(** What a collaborator can raise: an instance of [Exception], which
    [except Exception] catches, or [asyncio.CancelledError], which since
    Python 3.8 derives from [BaseException] only. *)
Inductive raised :=
| AnException (name : string)
| Cancellation.

Inductive outcome_ (A : Type) :=
| Fine (a : A)
| Throws (e : raised).
Arguments Fine {A} a.
Arguments Throws {A} e.

(** A [QPixmap]: null; decoded from bytes or read from a file; a
    transparent one of a given size; a scaled one. *)
Inductive pixmap :=
| Null
| Decoded (image : nat)
| Transparent (w h : Z)
| Scaled (image : nat) (w h : Z).

Definition is_null (p : pixmap) : bool :=
  match p with Null => true | _ => false end.

(** [pix.scaled(w, h, KeepAspectRatio, SmoothTransformation)] *)
Definition scaled (p : pixmap) (w h : Z) : pixmap :=
  match p with
  | Decoded i | Scaled i _ _ => Scaled i w h
  | Transparent _ _ => Transparent w h
  | Null => Null
  end.

Inductive icon := Icon (p : pixmap).

(** What [resp.read()] does and how leaving the [async with] goes. *)
Inductive body :=
| ReadRaises (e : raised)
| ReadBytes (data : list Z) (on_exit : option raised).

(** What [self._twitch.request("GET", url)] does. *)
Inductive fetch :=
| RequestRaises (e : raised)
| Response (status : Z) (b : body) (on_exit_unread : option raised).

(** What [pix.save(path, "PNG")] does. *)
Inductive save :=
| Saved
| NotSaved             (* returned [False] *)
| SaveRaises (e : raised).

(** [self._mem], and the image files under [self._dir]. *)
Record cache := Cache {
  mem : gmap (string * Z * Z) icon;
  files : gmap string pixmap
}.

Section Collaborators.
(** [hashlib.sha1(url.encode("utf-8")).hexdigest()], the text of
    [self._dir], and Qt's image decoder. *)
Variable sha1_hex : string → string.
Variable dir : string.
Variable decode : list Z → option nat.

(** [QtImageCache._path_for] *)
Definition path_for (url : string) (w h : Z) : string :=
  dir +:+ "/" +:+ sha1_hex url +:+ "_" +:+ pretty w +:+ "x" +:+ pretty h +:+ ".png".

(** The [try] block of the request:
<<
data: bytes | None = None
try:
    async with self._twitch.request("GET", url) as resp:
        if resp.status == 200:
            data = await resp.read()
except Exception:
    data = None
>> *)
Definition caught (e : raised) : outcome_ (option (list Z)) :=
  match e with
  | AnException _ => Fine None
  | Cancellation => Throws Cancellation
  end.

Definition request (f : fetch) : outcome_ (option (list Z)) :=
  match f with
  | RequestRaises e => caught e
  | Response status b on_exit_unread =>
      if bool_decide (status = 200) then
        match b with
        | ReadRaises e => caught e
        | ReadBytes data None => Fine (Some data)
        | ReadBytes data (Some e) => caught e
        end
      else
        match on_exit_unread with
        | None => Fine None
        | Some e => caught e
        end
  end.

(** [pix.load(path)]: the pixmap read from the file, when there is a
    file and it holds an image. *)
Definition load (path : string) (c : cache) : option pixmap :=
  match files c !! path with
  | Some pix => if is_null pix then None else Some pix
  | None => None
  end.

(** [QtImageCache.get_icon]:
<<
w, h = size
key = (url, w, h)
if key in self._mem:
    return self._mem[key]
path = self._path_for(url, w=w, h=h)
pix = QPixmap()
if pix.load(path):
    icon = QIcon(pix)
    self._mem[key] = icon
    return icon
data = ...                      # the request above
if data:
    pix.loadFromData(data)
if pix.isNull():
    pix = QPixmap(w, h)
    pix.fill(Qt.GlobalColor.transparent)
else:
    pix = pix.scaled(w, h, ...)
try:
    pix.save(path, "PNG")
except Exception:
    pass
icon = QIcon(pix)
self._mem[key] = icon
return icon
>> *)
Definition get_icon (url : string) (w h : Z) (f : fetch) (s : save) (c : cache)
  : outcome_ icon * cache :=
  let key := (url, w, h) in
  match mem c !! key with
  | Some i => (Fine i, c)
  | None =>
      let path := path_for url w h in
      match load path c with
      | Some pix => (Fine (Icon pix), Cache (<[key := Icon pix]> (mem c)) (files c))
      | None =>
          match request f with
          | Throws e => (Throws e, c)
          | Fine data =>
              let pix :=
                match data with
                | Some (_ :: _ as bytes) =>
                    match decode bytes with
                    | Some i => Decoded i
                    | None => Null
                    end
                | _ => Null
                end in
              let pix :=
                if is_null pix then Transparent w h else scaled pix w h in
              match s with
              | SaveRaises Cancellation => (Throws Cancellation, c)
              | _ =>
                  let files' :=
                    match s with
                    | Saved => <[path := pix]> (files c)
                    | _ => files c
                    end in
                  (Fine (Icon pix), Cache (<[key := Icon pix]> (mem c)) files')
              end
          end
      end
  end.

(** The fetch did not bring an image that decodes. *)
Definition fetch_failed (f : fetch) : Prop :=
  match request f with
  | Fine (Some (_ :: _ as bytes)) => decode bytes = None
  | _ => True
  end.

(** Nothing cancels the task while it is in [get_icon]. *)
Definition not_cancelled (f : fetch) (s : save) : Prop :=
  request f ≠ Throws Cancellation ∧ s ≠ SaveRaises Cancellation.

(** Neither the memory cache nor the disk cache has the icon. *)
Definition missing (url : string) (w h : Z) (c : cache) : Prop :=
  mem c !! (url, w, h) = None ∧ load (path_for url w h) c = None.

End Collaborators.

End QtImageCache.

(** ** Vocabulary of the statements *)

(** The last [close()] or [prevent_close()] of a schedule, if any:
    [Some true] for [close()]. *)
Definition signal_request (a : action) : option bool :=
  match a with
  | Close => Some true
  | PreventClose => Some false
  | _ => None
  end.

Definition latest_request (sched : list action) : option bool :=
  fold_left (λ acc a, match signal_request a with Some b => Some b | None => acc end)
            sched None.

(** The reading "whichever completes first wins", for the awaited value:
    once it has its result while the close wait of the call has not
    finished and the signal is not even set, the call, unless its task is
    cancelled, can end only by returning that result. *)
Definition first_to_complete_wins : Prop :=
  ∀ (before after : list action) (k : nat) (c : call) (v : value),
    let w := run before init in
    calls w !! k = Some c → result c = None →
    future_state_of (awaited c) w = Settled (Returned v) →
    close_wait c ≠ Finished → close_requested w = false →
    CancelCaller k ∉ after →
    ∀ o, call_result k (run after w) = Some o → o = Returned v.

Definition resolved_then_closed : list action * list action :=
  ([NewFuture; Call 0; Tick true; Complete 0 (Settled (Returned (PyObj 7))); Tick true],
   [Close; Tick true]).

Definition resolved_world : world := run (fst resolved_then_closed) init.

(** Work the loop still has queued or will queue on its own: the ready
    callbacks, the done-callbacks still registered on futures, and for
    every call the steps its close-wait task and its own wake-up can
    still take. *)
Definition task_weight (t : wait_task) : nat :=
  match t with
  | Created => 3
  | Parked => 2
  | Woken => 1
  | _ => 0
  end.

Definition call_weight (c : call) : nat :=
  task_weight (close_wait c) + (if woken c then 0 else 1).

Definition backlog (w : world) : nat :=
  length (ready w)
  + sum_list_with (λ f, length (callbacks f)) (futures w)
  + sum_list_with call_weight (calls w).

(** Every suspended call has something that will resume it: its wake-up
    is queued; or a completion callback is; or its close-wait task has a
    step queued; or that task is parked in the event's waiter list, which
    [Event.set] walks.  Likewise for [wait_until_closed]. *)
Definition call_alive (w : world) (k : nat) (c : call) : Prop :=
  if woken c then Wakeup k ∈ ready w
  else OnCompletion k ∈ ready w
       ∨ ((close_wait c = Created ∨ close_wait c = Woken) ∧ StepCloseWait k ∈ ready w)
       ∨ (close_wait c = Parked ∧ ev_value w = false ∧ OfCall k ∈ ev_waiters w).

Definition direct_alive (w : world) (j : nat) (d : direct) : Prop :=
  match d with
  | DParked => ev_value w = false ∧ Direct j ∈ ev_waiters w
  | DWoken => WakeDirect j ∈ ready w
  | DReturned => True
  end.

Definition alive (w : world) : Prop :=
  (∀ k c, calls w !! k = Some c → result c = None → call_alive w k c) ∧
  (∀ j d, directs w !! j = Some d → direct_alive w j d).

(** A call is in flight when it has been made and has not ended. *)
Definition in_flight (k : nat) (w : world) : Prop :=
  ∃ c, calls w !! k = Some c ∧ result c = None.

(** The way a call ends once the close signal is set: ExitRequest, or
    CancelledError when the awaiting task was itself cancelled. *)
Definition abandoned (c : call) : Prop :=
  result c = Some (Raised ExitRequest)
  ∨ (cancel_requested c = true ∧ result c = Some (Raised CancelledError)).

Definition reachable (w : world) : Prop := ∃ sched, w = run sched init.

(** The same, in the middle of [Event.set]: the value is already [True]
    and [l] is the part of the waiter list still to be walked. *)
Definition call_waking (l : list waiter) (w : world) (k : nat) (c : call) : Prop :=
  if woken c then Wakeup k ∈ ready w
  else OnCompletion k ∈ ready w
       ∨ ((close_wait c = Created ∨ close_wait c = Woken) ∧ StepCloseWait k ∈ ready w)
       ∨ (close_wait c = Parked ∧ OfCall k ∈ l).

Definition direct_waking (l : list waiter) (w : world) (j : nat) (d : direct) : Prop :=
  match d with
  | DParked => Direct j ∈ l
  | DWoken => WakeDirect j ∈ ready w
  | DReturned => True
  end.

Definition waking (l : list waiter) (w : world) : Prop :=
  (∀ k c, calls w !! k = Some c → result c = None → call_waking l w k c) ∧
  (∀ j d, directs w !! j = Some d → direct_waking l w j d).

(** A call that has ended, by returning or raising. *)
Definition ended (k : nat) (w : world) : Prop :=
  ∃ c o, calls w !! k = Some c ∧ result c = Some o.

(** While the signal stays set, the calls singled out by [P] are either
    still suspended or have ended as abandoned. *)
Definition closing (P : nat → Prop) (w : world) : Prop :=
  ev_value w = true ∧
  ∀ k c, calls w !! k = Some c → P k → result c = None ∨ abandoned c.

(** A small history for the examples: call 0 is parked on its close wait,
    a task sits in [wait_until_closed], call 1 has just been made; then
    the window is closed, call 2 is made and the task of call 1 is
    cancelled. *)
Definition busy_world : world :=
  run [NewFuture; Call 0; Tick true; WaitClosed; NewFuture; Call 1] init.

Definition after_close : list action := [NewFuture; Call 2; CancelCaller 1].

(** A confirmation request is outstanding: the slot holds a future that
    is not done. *)
Definition outstanding (w : world) : bool :=
  match confirm_future w with
  | Some fut => negb (done (future_state_of fut w))
  | None => false
  end.

(** The three exits of [_wait_for_confirm] in the examples: the button is
    clicked; the window is closed; the awaiting task is cancelled. *)
Definition round_click : list action := [Click; Tick true; Tick true; Tick true].
Definition round_close : list action := [Close; Tick true; Tick true; Tick true].
Definition round_cancel : list action := [CancelCaller 0; Tick true; Tick true].

(** The constraints of the login form, in the words of the specification:
    a username of 3 to 25 characters, all of them in [[A-Za-z0-9_]]; a
    password of at least 8 characters; a token that is empty or has at
    least 6 characters. *)
Fixpoint all_word (s : string) : bool :=
  match s with
  | EmptyString => true
  | String c s' => word_char c && all_word s'
  end.

Definition valid_username (u : string) : Prop :=
  3 ≤ String.length u ≤ 25 ∧ all_word u = true.

Definition valid_password (p : string) : Prop := 8 ≤ String.length p.

Definition valid_token (t : string) : Prop := t = EmptyString ∨ 6 ≤ String.length t.

Definition meets_constraints (d : LoginData) : Prop :=
  valid_username (username d) ∧ valid_password (password d) ∧ valid_token (token d).

Global Instance valid_username_dec u : Decision (valid_username u).
Proof. unfold valid_username. apply _. Defined.
Global Instance valid_password_dec p : Decision (valid_password p).
Proof. unfold valid_password. apply _. Defined.
Global Instance valid_token_dec t : Decision (valid_token t).
Proof. unfold valid_token. apply _. Defined.

(** What the form holds, as [ask_login] reads it. *)
Definition login_data_of (w : world) : LoginData :=
  mkLoginData (strip (login_text w)) (password_text w) (strip (token_text w)).

(** The first constraint that fails, in the order username, password,
    token. *)
Definition offending (d : LoginData) : option field :=
  if decide (valid_username (username d)) then
    if decide (valid_password (password d)) then
      if decide (valid_token (token d)) then None else Some Token
    else Some Password
  else Some Login.

Definition clear_field (fld : field) (w : world) : world :=
  match fld with
  | Login => with_login_text EmptyString w
  | Password => with_password_text EmptyString w
  | Token => with_token_text EmptyString w
  end.

(** The state in which the confirmation of a pass arrives, when the pass
    gets one: [_wait_for_confirm] has returned and the fields are about
    to be read. *)
Definition confirmation (round : list action) (w : world) : option world :=
  match wait_for_confirm round (add_note PrintLoginRequest w) with
  | (Return _, w1) => Some w1
  | _ => None
  end.

(** The state in which the next pass starts, when every round so far has
    brought a confirmation and each was rejected. *)
Fixpoint after_rejections (rounds : list (list action)) (w : world) : option world :=
  match rounds with
  | [] => Some w
  | round :: rest =>
      match confirmation round w with
      | Some w1 =>
          match offending (login_data_of w1) with
          | Some fld => after_rejections rest (clear_field fld w1)
          | None => None
          end
      | None => None
      end
  end.

Fixpoint last_char (s : string) : option ascii :=
  match s with
  | EmptyString => None
  | String c EmptyString => Some c
  | String _ s' => last_char s'
  end.

(** The scenario of the specification: username "ab", then "valid_user";
    password "short", then "longenough1". *)
Definition scenario : list (list action) :=
  [ [Typing Login "ab"; Typing Password "short"; Click; Tick true; Tick true; Tick true];
    [Typing Login "valid_user"; Click; Tick true; Tick true; Tick true; Tick true];
    [Typing Password "longenough1"; Click; Tick true; Tick true; Tick true; Tick true] ].

(** Call [k] awaits future [f], which has been resolved by a click, while
    no close is requested: the call has returned, or its resumption is on
    its way through the ready queue. *)
Definition confirmed_call (k f : nat) (w : world) : Prop :=
  ev_value w = false ∧
  future_state_of f w = Settled (Returned PyNone) ∧
  ∃ c, calls w !! k = Some c ∧ awaited c = f ∧
    (result c = Some (Returned PyNone)
     ∨ (result c = None ∧ cancel_requested c = false
        ∧ (close_wait c = Created ∨ close_wait c = Parked)
        ∧ (if woken c then Wakeup k ∈ ready w else OnCompletion k ∈ ready w))).

(** A round in which the user types into the three fields, clicks, and
    the loop runs [m] callbacks. *)
Definition round_typing (l p t : string) (m : nat) : list action :=
  [Typing Login l; Typing Password p; Typing Token t; Click] ++ map Tick (replicate m true).

Definition texts (w : world) : string * string * string :=
  (login_text w, password_text w, token_text w).

(** [_wait_for_confirm] started in [w] and suspended: a new future is in
    the slot, the button is enabled, a new call waits on the future. *)
Definition entered (w : world) : world :=
  World (ev_value w) (ev_waiters w)
        (futures w ++ [Future Pending [length (calls w)]])
        (calls w ++ [Call_ (length (futures w)) Created false false None])
        (directs w)
        (ready w ++ [StepCloseWait (length (calls w))])
        (login_text w) (password_text w) (token_text w)
        true (Some (length (futures w))) (journal w).

(** The same after the user has typed into the three fields and clicked. *)
Definition clicked (l p t : string) (w : world) : world :=
  World (ev_value w) (ev_waiters w)
        (futures w ++ [Future (Settled (Returned PyNone)) []])
        (calls w ++ [Call_ (length (futures w)) Created false false None])
        (directs w)
        (ready w ++ [StepCloseWait (length (calls w)); OnCompletion (length (calls w))])
        l p t true (Some (length (futures w))) (journal w).

(** What [ask_login] does before its loop. *)
Definition ask_login_start (w : world) : world :=
  add_note Attention (add_note StatusLoginRequired w).

(** The three fields as the user left them, untouched. *)
Definition field_values (w : world) : LoginData :=
  mkLoginData (login_text w) (password_text w) (token_text w).

(** The reading of the contract on the field values themselves: when
    [ask_login] returns, what stands in the three fields meets the
    constraints, and is what is returned. *)
Definition returns_field_values : Prop :=
  ∀ (rounds : list (list action)) (w w' : world) (d : LoginData),
    ask_login rounds w = (Return d, w') →
    meets_constraints (field_values w') ∧ d = field_values w'.

(** A username and a token typed with blanks around them. *)
Definition padded_input : list (list action) :=
  [ round_typing "  abc  " "longenough1" "   " 4 ].

(** The reading of the rejection rule on the field value: whenever the
    text of the login field is outside [[A-Za-z0-9_]{3,25}], the pass is
    a rejection that empties the login field and nothing else. *)
Definition bad_username_field_cleared : Prop :=
  ∀ (round : list action) (w w1 : world),
    confirmation round w = Some w1 →
    ¬ valid_username (login_text w1) →
    ask_login_pass round w = (Continue, with_login_text EmptyString w1).

(** A good username typed with a blank after it, and a short password. *)
Definition trailing_blank : list action :=
  round_typing "myname " "short" "" 4.

(** ** A WebsocketStatus widget in use *)

Module WebsocketStatusOps.

Import WebsocketStatus.
Local Open Scope Z_scope.

(** A call of one of the two methods. *)
Inductive op :=
| Update (idx : Z) (new_status : option string) (new_topics : option Z)
| Remove (idx : Z).

Section Constants.
Variable MAX_WEBSOCKETS : Z.
Variable WS_TOPICS_LIMIT : Z.

Definition apply (o : op) (w : widget) : outcome_ unit * widget :=
  match o with
  | Update idx new_status new_topics =>
      update MAX_WEBSOCKETS WS_TOPICS_LIMIT idx new_status new_topics w
  | Remove idx => remove MAX_WEBSOCKETS idx w
  end.

(** The calls one after the other, up to the first that raises. *)
Fixpoint run (ops : list op) (w : widget) : outcome_ unit * widget :=
  match ops with
  | [] => (Fine tt, w)
  | o :: ops =>
      match apply o w with
      | (Fine _, w) => run ops w
      | (AttributeError, w) => (AttributeError, w)
      end
  end.

(** What the row of an entry shows in columns 1 and 2. *)
Definition status_text (e : option item) : string :=
  match e with Some it => status it | None => EmptyString end.

Definition topics_text (e : option item) : string :=
  match e with
  | Some it => pretty (topics it) +:+ "/" +:+ pretty WS_TOPICS_LIMIT
  | None => EmptyString
  end.

(** The table shows the entries: every row has its index in column 0 and
    the status and the topics of its entry, or nothing without an entry,
    in columns 1 and 2; and there are entries for rows of the table only. *)
Definition in_sync (w : widget) : Prop :=
  (∀ idx, 0 ≤ idx < MAX_WEBSOCKETS →
          table w !! (idx, 0) = Some (pretty idx) ∧
          table w !! (idx, 1) = Some (status_text (items w !! idx)) ∧
          table w !! (idx, 2) = Some (topics_text (items w !! idx))) ∧
  (∀ idx, is_Some (items w !! idx) → 0 ≤ idx < MAX_WEBSOCKETS).

End Constants.

(** What is given last wins, what is not given stays. *)
Definition later {A} (second first : option A) : option A :=
  match second with Some _ => second | None => first end.

End WebsocketStatusOps.

(** ** _InventoryGrid: the width of the tiles *)

Module InventoryGrid.

Local Open Scope Z_scope.

(** The fields of [_InventoryGrid] and the grid size of the list widget
    ([None] until [setGridSize] is called). *)
Record grid := Grid {
  tile_h : Z;
  preferred_tile_w : Z;
  min_tile_w : Z;
  max_tile_w : Z;
  grid_size : option (Z * Z)
}.

(** [_InventoryGrid.__init__] *)
Definition init : grid := Grid 150 260 260 420 None.

(** The loop of [_update_grid] over the column counts still to try:
<<
    for cols in range(1, 20):
        tile_w = (vw - spacing * (cols - 1) - 2) // cols
        if tile_w < self._min_tile_w:
            break
        if tile_w > self._max_tile_w:
            continue
        used = tile_w * cols + spacing * (cols - 1)
        leftover = max(0, vw - used)
        if best is None or leftover < best[0]:
            best = (leftover, tile_w)
>> *)
Fixpoint scan (vw spacing lo hi : Z) (columns : list Z) (best : option (Z * Z))
  : option (Z * Z) :=
  match columns with
  | [] => best
  | cols :: rest =>
      let tile_w := (vw - spacing * (cols - 1) - 2) `div` cols in
      if bool_decide (tile_w < lo) then best
      else if bool_decide (tile_w > hi) then scan vw spacing lo hi rest best
      else
        let used := tile_w * cols + spacing * (cols - 1) in
        let leftover := Z.max 0 (vw - used) in
        let best :=
          match best with
          | None => Some (leftover, tile_w)
          | Some (l, _) => if bool_decide (leftover < l) then Some (leftover, tile_w) else best
          end in
        scan vw spacing lo hi rest best
  end.

(** [_InventoryGrid._update_grid]; [vw] is [self.viewport().width()] and
    [spacing] is [self.spacing()]:
<<
    vw = self.viewport().width()
    if vw <= 0:
        return
    spacing = max(0, int(self.spacing()))
    best = None
    for cols in range(1, 20): ...
    if best is None:
        tile_w = max(self._min_tile_w, min(self._max_tile_w, self._preferred_tile_w))
    else:
        tile_w = best[1]
    self.setGridSize(QSize(int(tile_w), int(self._tile_h)))
>> *)
Definition update_grid (vw spacing : Z) (g : grid) : grid :=
  if bool_decide (vw <= 0) then g
  else
    let spacing := Z.max 0 spacing in
    let best := scan vw spacing (min_tile_w g) (max_tile_w g) (seqZ 1 19) None in
    let tile_w :=
      match best with
      | None => Z.max (min_tile_w g) (Z.min (max_tile_w g) (preferred_tile_w g))
      | Some (_, tile_w) => tile_w
      end in
    Grid (tile_h g) (preferred_tile_w g) (min_tile_w g) (max_tile_w g)
         (Some (tile_w, tile_h g)).

(** [_InventoryGrid.set_tile_height] *)
Definition set_tile_height (h : Z) (vw spacing : Z) (g : grid) : grid :=
  update_grid vw spacing
    (Grid (Z.max 80 h) (preferred_tile_w g) (min_tile_w g) (max_tile_w g) (grid_size g)).

(** [_InventoryGrid.set_preferred_tile_width] *)
Definition set_preferred_tile_width (w : Z) (vw spacing : Z) (g : grid) : grid :=
  update_grid vw spacing
    (Grid (tile_h g) (Z.max 120 w) (min_tile_w g) (max_tile_w g) (grid_size g)).

(** [_InventoryGrid.resizeEvent] *)
Definition resizeEvent (vw spacing : Z) (g : grid) : grid := update_grid vw spacing g.

(** What happens to the widget; each time the viewport has some width
    and the list some spacing. *)
Inductive event :=
| SetTileHeight (h : Z)
| SetPreferredTileWidth (w : Z)
| Resize.

Definition handle (e : event) (vw spacing : Z) (g : grid) : grid :=
  match e with
  | SetTileHeight h => set_tile_height h vw spacing g
  | SetPreferredTileWidth w => set_preferred_tile_width w vw spacing g
  | Resize => resizeEvent vw spacing g
  end.

Definition run (events : list (event * Z * Z)) (g : grid) : grid :=
  fold_left (λ g e, handle e.1.1 e.1.2 e.2 g) events g.

(** [cols] tiles of width [tile_w] with [spacing] between them and a
    margin of 2 have room in a viewport of width [vw]. *)
Definition fits (vw spacing cols tile_w : Z) : Prop :=
  tile_w * cols + spacing * (cols - 1) + 2 ≤ vw.

End InventoryGrid.

(** ** SettingsPanel: the priority list and the exclude list *)

Module SettingsPanel.

Local Open Scope Z_scope.

Inductive outcome_ :=
| Fine
| AssertionError
| IndexError.

(** [self._settings.priority] and [self._settings.exclude], the number of
    calls of [self._settings.alter()], and the texts of the items of the
    two list widgets. *)
Record panel := Panel {
  priority : list string;
  exclude : gset string;
  alterations : nat;
  priority_list : list string;
  exclude_list : list string
}.

(** [list.remove(x)]: the first occurrence goes. *)
Fixpoint remove_first (x : string) (l : list string) : list string :=
  match l with
  | [] => []
  | y :: l' => if decide (x = y) then l' else y :: remove_first x l'
  end.

(** [list.insert(n, x)] and [QListWidget.insertItem(n, item)] for
    [0 <= n]: behind the end the item is appended. *)
Definition insert_at (n : nat) (x : string) (l : list string) : list string :=
  take n l ++ x :: drop n l.

(** [SettingsPanel.priority_add]; [text] is
    [self._priority_combo.currentText()]:
<<
    name = self._priority_combo.currentText().strip()
    if not name or name in self._settings.priority:
        return
    self._settings.priority.append(name)
    self._settings.alter()
    self._priority_list.addItem(name)
>> *)
Definition priority_add (text : string) (p : panel) : panel :=
  let name := strip text in
  if bool_decide (name = EmptyString) || bool_decide (name ∈ priority p) then p
  else Panel (priority p ++ [name]) (exclude p) (S (alterations p))
             (priority_list p ++ [name]) (exclude_list p).

(** [SettingsPanel.priority_delete]; [row] is
    [self._priority_list.currentRow()], and [takeItem] gives [None] for a
    row that the list does not have:
<<
    row = self._priority_list.currentRow()
    if row < 0:
        return
    item = self._priority_list.takeItem(row)
    if item is None:
        return
    name = item.text()
    if name in self._settings.priority:
        self._settings.priority.remove(name)
        self._settings.alter()
>> *)
Definition priority_delete (row : Z) (p : panel) : panel :=
  if bool_decide (row < 0) then p
  else
    match priority_list p !! Z.to_nat row with
    | None => p
    | Some name =>
        let shown := delete (Z.to_nat row) (priority_list p) in
        if bool_decide (name ∈ priority p)
        then Panel (remove_first name (priority p)) (exclude p) (S (alterations p))
                   shown (exclude_list p)
        else Panel (priority p) (exclude p) (alterations p) shown (exclude_list p)
    end.

(** [SettingsPanel.priority_move]:
<<
    row = self._priority_list.currentRow()
    if row < 0:
        return
    new_row = row - 1 if up else row + 1
    if new_row < 0 or new_row >= self._priority_list.count():
        return
    item = self._priority_list.takeItem(row)
    assert item is not None
    self._priority_list.insertItem(new_row, item)
    self._priority_list.setCurrentRow(new_row)
    name = item.text()
    self._settings.priority.pop(row)
    self._settings.priority.insert(new_row, name)
    self._settings.alter()
>> *)
Definition priority_move (up : bool) (row : Z) (p : panel) : outcome_ * panel :=
  if bool_decide (row < 0) then (Fine, p)
  else
    let new_row := if up then row - 1 else row + 1 in
    if bool_decide (new_row < 0) || bool_decide (new_row >= Z.of_nat (length (priority_list p)))
    then (Fine, p)
    else
      match priority_list p !! Z.to_nat row with
      | None => (AssertionError, p)
      | Some name =>
          let shown :=
            insert_at (Z.to_nat new_row) name (delete (Z.to_nat row) (priority_list p)) in
          let p := Panel (priority p) (exclude p) (alterations p) shown (exclude_list p) in
          if bool_decide (row < Z.of_nat (length (priority p))) then
            (Fine,
             Panel (insert_at (Z.to_nat new_row) name (delete (Z.to_nat row) (priority p)))
                   (exclude p) (S (alterations p)) (priority_list p) (exclude_list p))
          else (IndexError, p)
      end.

(** [SettingsPanel.exclude_add]:
<<
    name = self._exclude_combo.currentText().strip()
    if not name or name in self._settings.exclude:
        return
    self._settings.exclude.add(name)
    self._settings.alter()
    self._exclude_list.addItem(name)
>> *)
Definition exclude_add (text : string) (p : panel) : panel :=
  let name := strip text in
  if bool_decide (name = EmptyString) || bool_decide (name ∈ exclude p) then p
  else Panel (priority p) ({[name]} ∪ exclude p) (S (alterations p))
             (priority_list p) (exclude_list p ++ [name]).

(** [SettingsPanel.exclude_delete]:
<<
    row = self._exclude_list.currentRow()
    if row < 0:
        return
    item = self._exclude_list.takeItem(row)
    if item is None:
        return
    name = item.text()
    if name in self._settings.exclude:
        self._settings.exclude.remove(name)
        self._settings.alter()
>> *)
Definition exclude_delete (row : Z) (p : panel) : panel :=
  if bool_decide (row < 0) then p
  else
    match exclude_list p !! Z.to_nat row with
    | None => p
    | Some name =>
        let shown := delete (Z.to_nat row) (exclude_list p) in
        if bool_decide (name ∈ exclude p)
        then Panel (priority p) (exclude p ∖ {[name]}) (S (alterations p))
                   (priority_list p) shown
        else Panel (priority p) (exclude p) (alterations p) (priority_list p) shown
    end.

(** A press of one of the five buttons, with what the combo box or the
    list widget reports at that moment. *)
Inductive press :=
| PriorityAdd (text : string)
| PriorityDelete (row : Z)
| PriorityMove (up : bool) (row : Z)
| ExcludeAdd (text : string)
| ExcludeDelete (row : Z).

Definition handle (b : press) (p : panel) : outcome_ * panel :=
  match b with
  | PriorityAdd text => (Fine, priority_add text p)
  | PriorityDelete row => (Fine, priority_delete row p)
  | PriorityMove up row => priority_move up row p
  | ExcludeAdd text => (Fine, exclude_add text p)
  | ExcludeDelete row => (Fine, exclude_delete row p)
  end.

(** [currentRow()] of a list widget is -1 or the row of one of its
    items. *)
Definition current_row (b : press) (p : panel) : Prop :=
  match b with
  | PriorityDelete row | PriorityMove _ row => -1 ≤ row < Z.of_nat (length (priority_list p))
  | ExcludeDelete row => -1 ≤ row < Z.of_nat (length (exclude_list p))
  | _ => True
  end.

(** The widgets show the settings: the priority list widget has the
    names of the priority list in its order, the exclude list widget has
    the names of the exclude set, and no name is there twice. *)
Definition in_sync (p : panel) : Prop :=
  priority_list p = priority p ∧ NoDup (priority p) ∧
  NoDup (exclude_list p) ∧ (∀ name, name ∈ exclude_list p ↔ name ∈ exclude p).

Definition same_settings (p p' : panel) : Prop :=
  priority p' = priority p ∧ exclude p' = exclude p.

End SettingsPanel.

(** * Properties *)

(** ** The close signal *)

Ltac unfold_prims :=
  unfold close, prevent_close, event_set, event_clear, event_is_set, close_requested,
    wait_until_closed, wait_until_closed_resume, coro_unless_closed_enter,
    coro_unless_closed_resume, cancel_caller, on_confirm, future_set_result,
    future_cancel, complete_future, add_done_callback, remove_done_callback,
    step_close_wait, finish_close_wait, cancel_close_wait, on_completion,
    create_future, typing, set_close_wait, set_woken, set_cancel_requested,
    set_result, drop_waiter, schedule, schedule_all, run_handle in *.

Ltac frame := unfold_prims; repeat case_match; simpl in *; simplify_eq; try done.

Lemma ev_value_wake_waiter w x : ev_value (wake_waiter w x) = ev_value w.
Proof. destruct x; simpl; frame. Qed.

Lemma ev_value_fold_wake l w : ev_value (fold_left wake_waiter l w) = ev_value w.
Proof.
  revert w; induction l as [|x l IH]; intros w; simpl; [reflexivity|].
  rewrite IH. apply ev_value_wake_waiter.
Qed.

Lemma ev_value_close w : ev_value (close w) = true.
Proof.
  unfold close, event_set. destruct (ev_value w) eqn:E; [exact E|].
  rewrite ev_value_fold_wake. reflexivity.
Qed.

Lemma ev_value_run_handle b h w : ev_value (run_handle b h w) = ev_value w.
Proof. destruct h; simpl; frame. Qed.

Lemma ev_value_exec a w :
  ev_value (exec a w) =
  match signal_request a with Some b => b | None => ev_value w end.
Proof.
  destruct a; simpl; try reflexivity.
  - case_decide; [|reflexivity]. frame.
  - frame.
  - frame.
  - apply ev_value_close.
  - frame.
  - destruct fld; reflexivity.
  - frame.
  - destruct (ready w) as [|h rest]; [reflexivity|]. by rewrite ev_value_run_handle.
Qed.

Lemma latest_request_snoc sched a :
  latest_request (sched ++ [a]) =
  match signal_request a with Some b => Some b | None => latest_request sched end.
Proof. unfold latest_request. rewrite fold_left_app. reflexivity. Qed.

Lemma run_snoc sched a w : run (sched ++ [a]) w = exec a (run sched w).
Proof. unfold run. rewrite fold_left_app. reflexivity. Qed.

Lemma run_app s1 s2 w : run (s1 ++ s2) w = run s2 (run s1 w).
Proof. unfold run. apply fold_left_app. Qed.

(** C7. Whatever else happens in between (clicks, typing, new waits,
    futures settled, tasks cancelled, the loop running), the close signal
    is what the latest of the [close()] and [prevent_close()] calls made
    it: set after [close()], clear after [prevent_close()], and as it was
    when neither has been called.  So a set signal stays set until
    [prevent_close()], and a [close()] after it sets the signal again. *)
Theorem close_signal_follows_latest_request (sched : list action) (w : world) :
  close_requested (run sched w) =
  match latest_request sched with
  | Some b => b
  | None => close_requested w
  end.
Proof.
  induction sched as [|a sched IH] using rev_ind; [reflexivity|].
  rewrite run_snoc, latest_request_snoc. unfold close_requested, event_is_set in *.
  rewrite ev_value_exec. destruct (signal_request a); [reflexivity|exact IH].
Qed.

(** ** coro_unless_closed: who wins *)

Lemma future_state_of_remove_done_callback f k g w :
  future_state_of g (remove_done_callback f k w) = future_state_of g w.
Proof.
  unfold remove_done_callback, future_state_of.
  destruct (futures w !! f) as [c|] eqn:E; [|reflexivity]. simpl.
  destruct (decide (f = g)) as [->|Hne].
  - rewrite list_lookup_insert_eq by (by eapply lookup_lt_Some). by rewrite E.
  - by rewrite list_lookup_insert_ne.
Qed.

Lemma length_calls_cancel_close_wait k w :
  length (calls (cancel_close_wait k w)) = length (calls w).
Proof. frame; by rewrite length_alter. Qed.

Lemma lookup_alter_call (g : call → call) k (l : list call) c :
  l !! k = Some c → alter g k l !! k = Some (g c).
Proof. intros H. by rewrite list_lookup_alter_eq, H. Qed.

Lemma calls_remove_done_callback f k w :
  calls (remove_done_callback f k w) = calls w.
Proof. frame. Qed.

Lemma ev_value_remove_done_callback f k w :
  ev_value (remove_done_callback f k w) = ev_value w.
Proof. frame. Qed.

Lemma calls_future_cancel f w : calls (future_cancel f w) = calls w.
Proof. frame. Qed.

Lemma ev_value_future_cancel f w : ev_value (future_cancel f w) = ev_value w.
Proof. frame. Qed.

Lemma ev_value_cancel_close_wait k w : ev_value (cancel_close_wait k w) = ev_value w.
Proof. frame. Qed.

Lemma futures_cancel_close_wait k w : futures (cancel_close_wait k w) = futures w.
Proof. frame. Qed.

Lemma futures_set_result k o w : futures (set_result k o w) = futures w.
Proof. frame. Qed.

Lemma call_result_set_result k o w :
  k < length (calls w) → call_result k (set_result k o w) = Some o.
Proof.
  intros Hk. unfold call_result, set_result. simpl.
  destruct (lookup_lt_is_Some_2 _ _ Hk) as [c Hc].
  by rewrite (lookup_alter_call _ _ _ _ Hc).
Qed.

Lemma future_state_of_future_cancel f w :
  f < length (futures w) → future_state_of f w = Pending →
  future_state_of f (future_cancel f w) = Cancelled.
Proof.
  intros Hf. unfold future_cancel, complete_future, future_state_of.
  destruct (futures w !! f) as [c|] eqn:E; [|by apply lookup_ge_None in E; lia].
  intros ->. simpl. by rewrite list_lookup_insert_eq.
Qed.

Lemma close_wait_cancel_close_wait k c w :
  calls w !! k = Some c →
  close_wait <$> calls (cancel_close_wait k w) !! k =
  Some (match close_wait c with
        | Created | Parked | Woken => Cancelling
        | t => t
        end).
Proof.
  intros Hc. unfold cancel_close_wait. rewrite Hc.
  destruct (close_wait c) eqn:E; simpl;
    rewrite ?(lookup_alter_call _ _ _ _ Hc), ?Hc; simpl; by rewrite ?E.
Qed.

Lemma lookup_calls_set_result k o w j :
  calls (set_result k o w) !! j =
  (λ c, if decide (k = j)
        then Call_ (awaited c) (close_wait c) (woken c) (cancel_requested c) (Some o)
        else c) <$> calls w !! j.
Proof.
  unfold set_result; simpl. rewrite list_lookup_alter.
  destruct (decide (k = j)) as [->|]; destruct (calls w !! j); reflexivity.
Qed.

(** C2, as the code has it.  When the task suspended in a call resumes
    (its wake-up is the oldest ready callback and it was not cancelled),
    whatever is still pending of the awaited future and the close wait is
    cancelled, and the close signal as it is at that moment decides: when
    it is set the call raises ExitRequest, whether or not the awaited
    future completed, and completed first; when it is not set and the
    awaited future alone has completed, the call returns that future's
    result. *)
Theorem close_signal_decides_at_resumption
    (b : bool) (k : nat) (c : call) (w : world) (rest : list handle) :
  ready w = Wakeup k :: rest →
  calls w !! k = Some c → result c = None → cancel_requested c = false →
  awaited c < length (futures w) →
  let w' := exec (Tick b) w in
  (future_state_of (awaited c) w = Pending →
     future_state_of (awaited c) w' = Cancelled) ∧
  (close_wait c ∈ [Created; Parked; Woken] →
     close_wait <$> calls w' !! k = Some Cancelling) ∧
  (close_requested w = true → call_result k w' = Some (Raised ExitRequest)) ∧
  (close_requested w = false →
     ∀ o, future_state_of (awaited c) w = Settled o → close_wait c ≠ Finished →
          call_result k w' = Some o).
Proof.
  intros Hready Hc Hres Hcan Hf. simpl. rewrite Hready. simpl.
  unfold coro_unless_closed_resume. simpl. rewrite Hc, Hres, Hcan.
  set (w0 := with_ready rest w).
  set (w1 := remove_done_callback (awaited c) k w0).
  assert (Hk : k < length (calls w)) by (by eapply lookup_lt_Some).
  assert (Hst : future_state_of (awaited c) w1 = future_state_of (awaited c) w)
    by (unfold w1; by rewrite future_state_of_remove_done_callback).
  assert (Hfl : length (futures w1) = length (futures w)).
  { unfold w1, remove_done_callback. simpl. case_match; simpl; [|done].
    by rewrite length_insert. }
  assert (Hc1 : calls w1 !! k = Some c)
    by (unfold w1; by rewrite calls_remove_done_callback).
  rewrite Hst.
  set (w2 := if done (future_state_of (awaited c) w) then w1
             else future_cancel (awaited c) w1).
  assert (Hc2 : calls w2 !! k = Some c).
  { unfold w2. destruct (done _); [done|]. by rewrite calls_future_cancel. }
  assert (Hev2 : ev_value w2 = ev_value w).
  { unfold w2. destruct (done _); rewrite ?ev_value_future_cancel;
      unfold w1; by rewrite ev_value_remove_done_callback. }
  set (w3 := if bool_decide (close_wait c = Finished) then w2
             else cancel_close_wait k w2).
  assert (Hev3 : ev_value w3 = ev_value w).
  { unfold w3. destruct (bool_decide _); by rewrite ?ev_value_cancel_close_wait. }
  assert (Hk3 : k < length (calls w3)).
  { unfold w3. destruct (bool_decide _); rewrite ?length_calls_cancel_close_wait;
      by eapply lookup_lt_Some. }
  unfold close_requested, event_is_set. rewrite Hev3.
  repeat split.
  - intros Hp.
    assert (future_state_of (awaited c) w2 = Cancelled) as H2.
    { unfold w2. rewrite Hp. simpl.
      apply future_state_of_future_cancel; [lia|by rewrite Hst]. }
    assert (future_state_of (awaited c) w3 = Cancelled) as H3.
    { unfold w3. destruct (bool_decide _); [done|].
      unfold future_state_of. by rewrite futures_cancel_close_wait. }
    destruct (ev_value w); unfold future_state_of in *;
      by rewrite futures_set_result.
  - intros Hin.
    assert (bool_decide (close_wait c = Finished) = false) as Hbd.
    { apply bool_decide_eq_false. intros E. rewrite E in Hin.
      apply list_elem_of_In in Hin. simpl in Hin.
      destruct Hin as [?|[?|[?|[]]]]; congruence. }
    unfold w3. rewrite Hbd.
    pose proof (close_wait_cancel_close_wait k c w2 Hc2) as Hcw.
    assert (close_wait <$> calls (cancel_close_wait k w2) !! k = Some Cancelling) as Hcw'.
    { rewrite Hcw. f_equal.
      apply list_elem_of_In in Hin. simpl in Hin.
      destruct Hin as [<-|[<-|[<-|[]]]]; reflexivity. }
    destruct (ev_value w); rewrite lookup_calls_set_result;
      destruct (calls (cancel_close_wait k w2) !! k) as [c'|]; simpl in *;
      simplify_eq; rewrite decide_True by done; simpl; congruence.
  - intros ->. by apply call_result_set_result.
  - intros -> o Ho Hnf. rewrite call_result_set_result by done.
    rewrite Ho. simpl. rewrite bool_decide_eq_false_2 by done.
    f_equal. unfold await_first_done, future_outcome. by rewrite Hst, Ho.
Qed.


Lemma close_signal_decides_at_resumption_witness :
  ready resolved_world = [Wakeup 0] ∧
  calls resolved_world !! 0 = Some (Call_ 0 Parked true false None) ∧
  call_result 0 (exec (Tick true) resolved_world) = Some (Returned (PyObj 7)) ∧
  call_result 0 (exec (Tick true) (exec Close resolved_world)) = Some (Raised ExitRequest).
Proof.
  split; [reflexivity|]. split; [reflexivity|]. split.
  - pose proof (close_signal_decides_at_resumption true 0
                  (Call_ 0 Parked true false None) resolved_world []
                  eq_refl eq_refl eq_refl eq_refl) as H.
    specialize (H ltac:(vm_compute; lia)).
    destruct H as (_ & _ & _ & H).
    apply H; [reflexivity|reflexivity|discriminate].
  - pose proof (close_signal_decides_at_resumption true 0
                  (Call_ 0 Woken true false None) (exec Close resolved_world)
                  [StepCloseWait 0]
                  eq_refl eq_refl eq_refl eq_refl) as H.
    specialize (H ltac:(vm_compute; lia)).
    destruct H as (_ & _ & H & _).
    apply H; reflexivity.
Defined.

(** C2, as stated, fails: the awaited future gets its result while the
    close wait is still parked and the signal unset, so it completes
    first; the close request arrives before the caller has resumed, and
    the call raises ExitRequest instead of returning the result. *)
Lemma first_to_complete_wins_fails :
  future_state_of 0 resolved_world = Settled (Returned (PyObj 7)) ∧
  close_wait <$> calls resolved_world !! 0 = Some Parked ∧
  close_requested resolved_world = false ∧
  call_result 0 (run (snd resolved_then_closed) resolved_world) = Some (Raised ExitRequest) ∧
  ¬ first_to_complete_wins.
Proof.
  split; [reflexivity|]. split; [reflexivity|].
  split; [reflexivity|]. split; [reflexivity|].
  intros H.
  specialize (H (fst resolved_then_closed) (snd resolved_then_closed) 0
                (Call_ 0 Parked true false None) (PyObj 7)).
  assert (CancelCaller 0 ∉ [Close; Tick true]) as Hn.
  { intros Hin. apply list_elem_of_In in Hin. simpl in Hin.
    destruct Hin as [?|[?|[]]]; discriminate. }
  specialize (H eq_refl eq_refl eq_refl ltac:(discriminate) eq_refl Hn
                (Raised ExitRequest) eq_refl).
  discriminate.
Qed.

(** ** Nobody is left suspended for ever *)

Ltac mem :=
  repeat (rewrite ?elem_of_cons, ?elem_of_app, ?elem_of_nil, ?list_elem_of_filter in * );
  intuition (try congruence; try discriminate).

(** Looking up a call, or a wait, after an update somewhere in the list. *)
Ltac split_lookup H :=
  rewrite ?lookup_app, ?list_lookup_alter, ?list_lookup_insert in H;
  repeat (case_decide; simplify_eq);
  repeat match type of H with
  | context [?l !! ?j] => let E := fresh "E" in destruct (l !! j) eqn:E; simpl in H
  end; simplify_eq;
  repeat match goal with
  | E : [_] !! _ = Some _ |- _ =>
      apply list_lookup_singleton_Some in E; destruct E; simplify_eq
  | E : ?l !! ?k = None, E' : ?k - length ?l = 0 |- _ =>
      apply lookup_ge_None in E;
      assert (k = length l) by lia; clear E'; subst k
  end.

Ltac use_alive Hc Hd :=
  try match goal with
      | E : calls _ !! ?j = Some ?c |- _ _ ?j _ =>
          let H := fresh in
          pose proof (Hc j c E) as H; simpl in H;
          try (specialize (H ltac:(assumption))); try specialize (H eq_refl)
      | E : calls _ !! ?j = Some ?c |- _ _ _ ?j _ =>
          let H := fresh in
          pose proof (Hc j c E) as H; simpl in H;
          try (specialize (H ltac:(assumption))); try specialize (H eq_refl)
      | E : directs _ !! ?j = Some ?d |- _ _ ?j _ =>
          let H := fresh in pose proof (Hd j d E) as H; simpl in H
      | E : directs _ !! ?j = Some ?d |- _ _ _ ?j _ =>
          let H := fresh in pose proof (Hd j d E) as H; simpl in H
      end;
  unfold call_alive, direct_alive, call_waking, direct_waking in *; simpl in *;
  repeat match goal with
         | E : ?l !! ?i = Some _ |- _ => learn_hyp (lookup_lt_Some _ _ _ E)
         end;
  repeat case_match; simplify_eq; mem; simplify_eq; try (exfalso; lia); try tauto.

Ltac alive_step :=
  let Hc := fresh "Hc" in let Hd := fresh "Hd" in
  let Hl := fresh "Hl" in let Hr := fresh "Hr" in
  intros [Hc Hd]; split;
  [ intros ? ? Hl Hr | intros ? ? Hl ];
  unfold_prims; repeat case_match; simpl in *; split_lookup Hl; use_alive Hc Hd.

Lemma alive_step_close_wait k w :
  alive (with_ready (StepCloseWait k :: ready w) w) → alive (step_close_wait k w).
Proof. alive_step. Qed.

Lemma alive_on_completion k w :
  alive (with_ready (OnCompletion k :: ready w) w) → alive (on_completion k w).
Proof. alive_step. Qed.

Lemma alive_wait_until_closed_resume j w :
  alive (with_ready (WakeDirect j :: ready w) w) → alive (wait_until_closed_resume j w).
Proof. alive_step. Qed.

Lemma alive_coro_unless_closed_resume b k w :
  alive (with_ready (Wakeup k :: ready w) w) → alive (coro_unless_closed_resume b k w).
Proof. alive_step. Qed.

Lemma waking_wake_waiter x l w : waking (x :: l) w → waking l (wake_waiter w x).
Proof. unfold wake_waiter. alive_step. Qed.

Lemma waking_fold l w : waking l w → waking [] (fold_left wake_waiter l w).
Proof.
  revert w. induction l as [|x l IH]; intros w H; simpl; [done|].
  by apply IH, waking_wake_waiter.
Qed.

Lemma alive_close w : alive w → alive (close w).
Proof.
  intros Ha. unfold close, event_set. destruct (ev_value w) eqn:Ev; [done|].
  assert (waking [] (fold_left wake_waiter (ev_waiters w) (with_ev_value true w)))
    as [Hc Hd].
  { apply waking_fold. destruct Ha as [Hc Hd]. split.
    - intros k c Hl Hr. specialize (Hc k c Hl Hr). unfold call_alive, call_waking in *.
      simpl in *. destruct (woken c); tauto.
    - intros j d Hl. specialize (Hd j d Hl). destruct d; simpl in *; tauto. }
  split.
  - intros k c Hl Hr. specialize (Hc k c Hl Hr). unfold call_alive, call_waking in *.
    destruct (woken c); mem.
  - intros j d Hl. specialize (Hd j d Hl). destruct d; simpl in *; mem.
Qed.

Lemma alive_init : alive init.
Proof. split; intros ? ? H; simpl in H; by rewrite lookup_nil in H. Qed.

Lemma alive_exec a w : alive w → alive (exec a w).
Proof.
  destruct a; simpl.
  - alive_step.
  - case_decide; [|done]. alive_step.
  - alive_step.
  - destruct (done s); [|done]. alive_step.
  - apply alive_close.
  - alive_step.
  - alive_step.
  - destruct fld; alive_step.
  - destruct (confirm_enabled w); [|done]. alive_step.
  - destruct (ready w) as [|h rest] eqn:Er; [done|].
    intros Ha.
    assert (alive (with_ready (h :: ready (with_ready rest w)) (with_ready rest w))) as Ha'.
    { destruct Ha as [Hc Hd]. split.
      - intros k c Hl Hr. specialize (Hc k c Hl Hr). unfold call_alive in *. simpl in *.
        by rewrite Er in Hc.
      - intros j d Hl. specialize (Hd j d Hl). unfold direct_alive in *. simpl in *.
        by rewrite Er in Hd. }
    revert Ha'. generalize (with_ready rest w). intros w0.
    destruct h; simpl.
    + apply alive_step_close_wait.
    + apply alive_on_completion.
    + apply alive_coro_unless_closed_resume.
    + apply alive_wait_until_closed_resume.
Qed.

Lemma alive_run sched w : alive w → alive (run sched w).
Proof.
  revert w. induction sched as [|a sched IH]; intros w H; [done|].
  simpl. apply IH. by apply alive_exec.
Qed.

Lemma alive_reachable w : reachable w → alive w.
Proof. intros [sched ->]. apply alive_run, alive_init. Qed.

(** ** The loop runs out of work *)

Lemma sum_list_with_alter {A} (f : A → nat) (g : A → A) k (l : list A) c :
  l !! k = Some c →
  sum_list_with f (alter g k l) + f c = sum_list_with f l + f (g c).
Proof.
  revert k. induction l as [|x l IH]; intros [|k] H; simplify_eq/=; [lia|].
  specialize (IH k H). lia.
Qed.

Lemma sum_list_with_insert {A} (f : A → nat) k (l : list A) c c' :
  l !! k = Some c →
  sum_list_with f (<[k:=c']> l) + f c = sum_list_with f l + f c'.
Proof.
  revert k. induction l as [|x l IH]; intros [|k] H; simplify_eq/=; [lia|].
  specialize (IH k H). lia.
Qed.

Lemma alter_absent {A} (g : A → A) k (l : list A) :
  l !! k = None → alter g k l = l.
Proof.
  revert k. induction l as [|x l IH]; intros [|k] H; simplify_eq/=; try done.
  f_equal. by apply IH.
Qed.

Lemma backlog_schedule h w : backlog (schedule h w) = S (backlog w).
Proof. unfold backlog, schedule. simpl. rewrite length_app. simpl. lia. Qed.

Lemma backlog_with_ev_waiters l w : backlog (with_ev_waiters l w) = backlog w.
Proof. reflexivity. Qed.

Lemma backlog_drop_waiter x w : backlog (drop_waiter x w) = backlog w.
Proof. reflexivity. Qed.

Lemma backlog_with_directs l w : backlog (with_directs l w) = backlog w.
Proof. reflexivity. Qed.

Lemma backlog_set_close_wait k t c w :
  calls w !! k = Some c →
  backlog (set_close_wait k t w) + task_weight (close_wait c) = backlog w + task_weight t.
Proof.
  intros H. unfold backlog, set_close_wait. simpl.
  pose proof (sum_list_with_alter call_weight
    (λ c, Call_ (awaited c) t (woken c) (cancel_requested c) (result c)) k _ _ H) as E.
  remember (sum_list_with call_weight) as total.
  unfold call_weight in E. simpl in E. lia.
Qed.

Lemma backlog_set_woken k c w :
  calls w !! k = Some c → woken c = false →
  S (backlog (set_woken k w)) = backlog w.
Proof.
  intros H Hw. unfold backlog, set_woken. simpl.
  pose proof (sum_list_with_alter call_weight
    (λ c, Call_ (awaited c) (close_wait c) true (cancel_requested c) (result c)) k _ _ H) as E.
  remember (sum_list_with call_weight) as total.
  unfold call_weight in E. simpl in E. rewrite Hw in E. lia.
Qed.

Lemma backlog_set_result k o w : backlog (set_result k o w) = backlog w.
Proof.
  unfold backlog, set_result. simpl.
  destruct (calls w !! k) as [c|] eqn:H.
  - pose proof (sum_list_with_alter call_weight
      (λ c, Call_ (awaited c) (close_wait c) (woken c) (cancel_requested c) (Some o)) k _ _ H) as E.
    remember (sum_list_with call_weight) as total.
    unfold call_weight in E. simpl in E. lia.
  - by rewrite alter_absent.
Qed.

Lemma backlog_remove_done_callback f k w :
  backlog (remove_done_callback f k w) ≤ backlog w.
Proof.
  unfold backlog, remove_done_callback.
  destruct (futures w !! f) as [c|] eqn:H; [|done]. simpl.
  pose proof (sum_list_with_insert (λ f, length (callbacks f)) f _ _
    (Future (state c) (filter (λ k', k' ≠ k) (callbacks c))) H) as E.
  simpl in E. pose proof (length_filter (λ k', k' ≠ k) (callbacks c)). lia.
Qed.

Lemma backlog_complete_future f s w : backlog (complete_future f s w) = backlog w.
Proof.
  unfold backlog, complete_future.
  destruct (futures w !! f) as [c|] eqn:H; [|done].
  destruct (state c); try done. simpl.
  pose proof (sum_list_with_insert (λ f, length (callbacks f)) f _ _ (Future s []) H) as E.
  simpl in E. rewrite length_app, length_map. lia.
Qed.

Lemma backlog_cancel_close_wait k w : backlog (cancel_close_wait k w) ≤ backlog w.
Proof.
  unfold cancel_close_wait. destruct (calls w !! k) as [c|] eqn:H; [|done].
  destruct (close_wait c) eqn:E; try done; rewrite ?backlog_schedule;
    pose proof (backlog_set_close_wait k Cancelling c w H) as E'; rewrite E in E';
    simpl in E'; lia.
Qed.

Lemma backlog_coro_unless_closed_resume b k w :
  backlog (coro_unless_closed_resume b k w) ≤ backlog w.
Proof.
  unfold coro_unless_closed_resume.
  destruct (calls w !! k) as [c|] eqn:H; [|done].
  destruct (result c); [done|].
  pose proof (backlog_remove_done_callback (awaited c) k w) as H1.
  destruct (cancel_requested c); [by rewrite backlog_set_result|].
  set (w1 := remove_done_callback (awaited c) k w) in *.
  set (w2 := if done _ then w1 else _).
  assert (backlog w2 = backlog w1) as H2.
  { unfold w2. destruct (done _); [done|]. apply backlog_complete_future. }
  set (w3 := if bool_decide _ then w2 else _).
  assert (backlog w3 ≤ backlog w2) as H3.
  { unfold w3. destruct (bool_decide _); [done|]. apply backlog_cancel_close_wait. }
  destruct (event_is_set w3); rewrite backlog_set_result; lia.
Qed.

Lemma backlog_step_close_wait k w : backlog (step_close_wait k w) ≤ backlog w.
Proof.
  unfold step_close_wait, finish_close_wait.
  destruct (calls w !! k) as [c|] eqn:H; [|done].
  destruct (close_wait c) eqn:E; try done.
  - destruct (ev_value w).
    + pose proof (backlog_set_close_wait k Finished c w H) as E'. rewrite E in E'.
      simpl in E'. destruct (result c); rewrite ?backlog_schedule; lia.
    + rewrite backlog_with_ev_waiters.
      pose proof (backlog_set_close_wait k Parked c w H) as E'. rewrite E in E'.
      simpl in E'. lia.
  - pose proof (backlog_set_close_wait k Finished c (drop_waiter (OfCall k) w) H) as E'.
    rewrite E, backlog_drop_waiter in E'. simpl in E'.
    destruct (result c); rewrite ?backlog_schedule; lia.
  - pose proof (backlog_set_close_wait k CancelledTask c (drop_waiter (OfCall k) w) H) as E'.
    rewrite E, backlog_drop_waiter in E'. simpl in E'. lia.
Qed.

Lemma backlog_on_completion k w : backlog (on_completion k w) ≤ backlog w.
Proof.
  unfold on_completion.
  destruct (calls w !! k) as [c|] eqn:H; [|done].
  destruct (result c); [done|]. destruct (woken c) eqn:E; [done|].
  rewrite backlog_schedule. by rewrite (backlog_set_woken k c w H E).
Qed.

Lemma backlog_wait_until_closed_resume j w :
  backlog (wait_until_closed_resume j w) ≤ backlog w.
Proof.
  unfold wait_until_closed_resume. repeat case_match; try done.
Qed.

Lemma backlog_tick b w :
  ready w ≠ [] → backlog (exec (Tick b) w) < backlog w.
Proof.
  simpl. destruct (ready w) as [|h rest] eqn:E; [done|]. intros _.
  assert (backlog w = S (backlog (with_ready rest w))) as ->.
  { unfold backlog. simpl. rewrite E. simpl. lia. }
  apply Nat.lt_succ_r.
  destruct h; simpl.
  - apply backlog_step_close_wait.
  - apply backlog_on_completion.
  - apply backlog_coro_unless_closed_resume.
  - apply backlog_wait_until_closed_resume.
Qed.

Lemma run_ticks_idle bs w : ready w = [] → run (map Tick bs) w = w.
Proof.
  intros H. induction bs as [|b bs IH]; [done|]. simpl. by rewrite H.
Qed.

Lemma ready_drained bs w :
  backlog w ≤ length bs → ready (run (map Tick bs) w) = [].
Proof.
  revert w. induction bs as [|b bs IH]; intros w H.
  - simpl in *. unfold backlog in H. destruct (ready w); [done|simpl in H; lia].
  - destruct (ready w) as [|h rest] eqn:E.
    + by rewrite run_ticks_idle.
    + change (run (map Tick (b :: bs)) w) with (run (map Tick bs) (exec (Tick b) w)).
      apply IH. pose proof (backlog_tick b w) as Hlt. rewrite E in Hlt.
      specialize (Hlt ltac:(done)). simpl in H. lia.
Qed.

(** ** Once the signal is set *)

Lemma calls_cancel_close_wait k w j c' :
  calls (cancel_close_wait k w) !! j = Some c' →
  ∃ c, calls w !! j = Some c ∧ result c' = result c ∧
       cancel_requested c' = cancel_requested c.
Proof.
  unfold cancel_close_wait. destruct (calls w !! k) as [c0|] eqn:E0; [|by eauto].
  destruct (close_wait c0); unfold set_close_wait, schedule; simpl; try (by eauto);
    rewrite list_lookup_alter; case_decide; subst;
    destruct (calls w !! j) as [c|]; simpl; intros; simplify_eq; eauto.
Qed.

Lemma calls_resume b k0 w k c' :
  ev_value w = true →
  calls (coro_unless_closed_resume b k0 w) !! k = Some c' →
  result c' = None ∨ abandoned c' ∨
  ∃ c, calls w !! k = Some c ∧ result c' = result c ∧
       cancel_requested c' = cancel_requested c.
Proof.
  intros Hev. unfold coro_unless_closed_resume.
  destruct (calls w !! k0) as [c0|] eqn:E0; [|by eauto 10].
  destruct (result c0) eqn:Er; [by eauto 10|].
  destruct (cancel_requested c0) eqn:Ec.
  - rewrite lookup_calls_set_result, calls_remove_done_callback.
    destruct (calls w !! k) as [c|] eqn:Ek; [|done]. simpl.
    case_decide; intros; simplify_eq; [|by eauto 10].
    right. left. unfold abandoned. simpl. rewrite Ec. eauto.
  - cbv zeta.
    set (w1 := remove_done_callback (awaited c0) k0 w).
    set (w2 := if done (future_state_of (awaited c0) w1) then w1
               else future_cancel (awaited c0) w1).
    set (w3 := if bool_decide (close_wait c0 = Finished) then w2
               else cancel_close_wait k0 w2).
    assert (ev_value w3 = true) as Hev3.
    { unfold w3, w2, w1. repeat case_match;
        rewrite ?ev_value_cancel_close_wait, ?ev_value_future_cancel,
          ?ev_value_remove_done_callback; done. }
    unfold event_is_set. rewrite Hev3.
    rewrite lookup_calls_set_result.
    destruct (calls w3 !! k) as [c3|] eqn:E3; [|done]. simpl.
    assert (∃ c, calls w !! k = Some c ∧ result c3 = result c ∧
                 cancel_requested c3 = cancel_requested c) as (c & Hc & Hr & Hcr).
    { unfold w3, w2, w1 in E3. revert E3. repeat case_match; intros E3.
      all: try apply calls_cancel_close_wait in E3 as (c & E3 & ? & ?).
      all: rewrite ?calls_future_cancel, ?calls_remove_done_callback in E3.
      all: eauto. }
    case_decide; intros; simplify_eq; [|by eauto 10].
    right. left. unfold abandoned. simpl. eauto.
Qed.

Lemma exec_call a w k c' :
  ev_value w = true → a ≠ PreventClose →
  calls (exec a w) !! k = Some c' →
  result c' = None ∨ abandoned c' ∨
  ∃ c, calls w !! k = Some c ∧ result c' = result c ∧
       cancel_requested c' = cancel_requested c.
Proof.
  intros Hev Hne Hl.
  destruct a as [|f| |f s| | |k0|fld text| |b]; simpl in *; try done.
  9:{ destruct (ready w) as [|h rest]; [by eauto 10|]. destruct h; simpl in *.
       3:{ by apply calls_resume in Hl. }
       all: unfold abandoned; unfold_prims; rewrite ?Hev in *.
       all: repeat case_match; simpl in *; rewrite ?Hev in *; split_lookup Hl; simpl; eauto 10. }
  all: unfold abandoned; unfold_prims; rewrite ?Hev in *.
  all: repeat case_match; simpl in *; rewrite ?Hev in *; split_lookup Hl; simpl; eauto 10.
Qed.

Lemma length_calls_fold_wake l w :
  length (calls (fold_left wake_waiter l w)) = length (calls w)
  ∧ length (directs (fold_left wake_waiter l w)) = length (directs w).
Proof.
  revert w. induction l as [|x l IH]; intros w; simpl; [done|].
  destruct (IH (wake_waiter w x)) as [-> ->].
  unfold wake_waiter. frame; rewrite ?length_alter, ?length_insert; done.
Qed.

Lemma length_grows a w :
  length (calls w) ≤ length (calls (exec a w))
  ∧ length (directs w) ≤ length (directs (exec a w)).
Proof.
  destruct a as [|f| |f s| | |k0|fld text| |b]; simpl.
  5: { unfold close, event_set. destruct (ev_value w); [done|].
       destruct (length_calls_fold_wake (ev_waiters w) (with_ev_value true w)) as [-> ->].
       done. }
  all: try (destruct (ready w) as [|h rest]; [done|]; destruct h; simpl).
  all: unfold_prims; repeat case_match; simpl;
    rewrite ?length_alter, ?length_insert, ?length_app; simpl; lia.
Qed.

Lemma length_grows_run sched w :
  length (calls w) ≤ length (calls (run sched w))
  ∧ length (directs w) ≤ length (directs (run sched w)).
Proof.
  revert w. induction sched as [|a sched IH]; intros w; [done|]. simpl.
  destruct (IH (exec a w)), (length_grows a w). lia.
Qed.

Lemma closing_exec P a w :
  a ≠ PreventClose → closing P w → closing P (exec a w).
Proof.
  intros Hne [Hev Hc]. split.
  - rewrite ev_value_exec. destruct a; simpl; done.
  - intros k c' Hl HP.
    destruct (exec_call a w k c' Hev Hne Hl) as [?|[?|(c & Hc0 & Hr & Hcr)]]; [by left|by right|].
    destruct (Hc k c Hc0 HP) as [Hn|Ha].
    + left. by rewrite Hr.
    + right. unfold abandoned in *. rewrite Hr, Hcr. done.
Qed.

Lemma closing_run P sched w :
  PreventClose ∉ sched → closing P w → closing P (run sched w).
Proof.
  revert w. induction sched as [|a sched IH]; intros w Hn H; [done|].
  simpl. apply IH.
  - intros Hin. apply Hn. apply elem_of_cons. by right.
  - apply closing_exec; [|done]. intros ->. apply Hn. apply elem_of_cons. by left.
Qed.

Lemma result_wake_waiter x w k c' :
  calls (wake_waiter w x) !! k = Some c' →
  ∃ c, calls w !! k = Some c ∧ result c' = result c.
Proof.
  intros Hl. unfold wake_waiter in Hl.
  unfold_prims; repeat case_match; simpl in *; split_lookup Hl; eauto.
Qed.

Lemma result_fold_wake l w k c' :
  calls (fold_left wake_waiter l w) !! k = Some c' →
  ∃ c, calls w !! k = Some c ∧ result c' = result c.
Proof.
  revert w c'. induction l as [|x l IH]; intros w c' Hl; simpl in *; [by eauto|].
  destruct (IH _ _ Hl) as (c1 & H1 & E1).
  destruct (result_wake_waiter _ _ _ _ H1) as (c & H & E).
  exists c. split; [done|congruence].
Qed.

Lemma result_close w k c' :
  calls (close w) !! k = Some c' →
  ∃ c, calls w !! k = Some c ∧ result c' = result c.
Proof.
  unfold close, event_set. destruct (ev_value w); [by eauto|].
  intros Hl. by apply result_fold_wake in Hl.
Qed.

Lemma not_alive_when_drained w k c :
  alive w → ready w = [] → ev_value w = true →
  calls w !! k = Some c → result c ≠ None.
Proof.
  intros [Hc _] Hr Hev Hl Hn. specialize (Hc k c Hl Hn).
  unfold call_alive in Hc. rewrite Hr, Hev in Hc.
  destruct (woken c); mem.
Qed.

Lemma direct_returned_when_drained w j d :
  alive w → ready w = [] → ev_value w = true →
  directs w !! j = Some d → d = DReturned.
Proof.
  intros [_ Hd] Hr Hev Hl. specialize (Hd j d Hl).
  destruct d; simpl in Hd; rewrite ?Hr, ?Hev in Hd; mem.
Qed.

Lemma not_in_ticks bs : PreventClose ∉ map Tick bs.
Proof.
  intros Hin. apply list_elem_of_fmap in Hin. destruct Hin as (b & Hb & _). discriminate.
Qed.



(** ** The confirmation rendezvous *)

Lemma slot_wake_waiter w x :
  confirm_enabled (wake_waiter w x) = confirm_enabled w
  ∧ confirm_future (wake_waiter w x) = confirm_future w.
Proof. unfold wake_waiter. frame. Qed.

Lemma slot_fold_wake l w :
  confirm_enabled (fold_left wake_waiter l w) = confirm_enabled w
  ∧ confirm_future (fold_left wake_waiter l w) = confirm_future w.
Proof.
  revert w. induction l as [|x l IH]; intros w; simpl; [done|].
  destruct (IH (wake_waiter w x)) as [-> ->]. apply slot_wake_waiter.
Qed.

Lemma slot_exec a w :
  confirm_enabled (exec a w) = confirm_enabled w
  ∧ confirm_future (exec a w) = confirm_future w.
Proof.
  destruct a as [|f| |f s| | |k0|fld text| |b]; simpl.
  5: { unfold close, event_set. destruct (ev_value w); [done|].
       destruct (slot_fold_wake (ev_waiters w) (with_ev_value true w)) as [-> ->].
       done. }
  all: try (destruct (ready w) as [|h rest]; [done|]; destruct h; simpl).
  all: frame.
Qed.

Lemma slot_await_call k round w :
  confirm_enabled (snd (await_call k round w)) = confirm_enabled w
  ∧ confirm_future (snd (await_call k round w)) = confirm_future w.
Proof.
  revert w. induction round as [|a round IH]; intros w; simpl.
  - repeat case_match; done.
  - destruct (call_result k w) as [[v|e]|]; try done.
    destruct (IH (exec a w)) as [-> ->]. apply slot_exec.
Qed.

(** C1. However [_wait_for_confirm] ends, by returning after the future
    was resolved, by raising ExitRequest after a close request, by raising
    CancelledError after the cancellation of its task, or by any other
    exception out of the await, the confirm button is disabled again and
    the slot [_confirm_future] is empty when it returns or propagates. *)
Theorem wait_for_confirm_releases (round : list action) (w w' : world) (r : reply unit) :
  wait_for_confirm round w = (r, w') →
  r ≠ Suspended →
  confirm_enabled w' = false ∧ confirm_future w' = None.
Proof.
  unfold wait_for_confirm, try_finally, coro_unless_closed. simpl.
  intros H Hr.
  destruct (await_call _ _ _) as [[v|e|] w1]; simplify_eq; done.
Qed.

Lemma wait_for_confirm_holds (round : list action) (w w' : world) :
  wait_for_confirm round w = (Suspended, w') →
  confirm_enabled w' = true ∧ confirm_future w' = Some (length (futures w)).
Proof.
  unfold wait_for_confirm, try_finally, coro_unless_closed. simpl.
  intros H.
  match type of H with context [await_call ?k ?r ?w0] =>
    pose proof (slot_await_call k r w0) as [H1 H2];
    destruct (await_call k r w0) as [[v|e|] w1] end; simplify_eq.
  simpl in *. rewrite H1, H2. unfold_prims. repeat case_match; done.
Qed.

(** ** Resolving with nothing to resolve *)

(** C3. [_on_confirm] never raises; with no request outstanding (the slot
    empty, or its future already done) it changes nothing; and calling it
    again after it has resolved a request changes nothing either. *)
Theorem on_confirm_without_request (w : world) :
  fst (on_confirm w) = Return tt ∧
  (outstanding w = false → on_confirm w = (Return tt, w)) ∧
  on_confirm (snd (on_confirm w)) = (Return tt, snd (on_confirm w)).
Proof.
  unfold on_confirm, outstanding, future_set_result.
  destruct (confirm_future w) as [fut|] eqn:Ef; simpl; [|by rewrite Ef].
  destruct (done (future_state_of fut w)) eqn:Ed; simpl.
  - rewrite Ef, Ed. done.
  - split; [done|]. split; [done|].
    assert (confirm_future (complete_future fut (Settled (Returned PyNone)) w) = Some fut)
      as -> by (rewrite <- Ef; frame).
    unfold complete_future, future_state_of in *.
    destruct (futures w !! fut) as [c|] eqn:Ec.
    + destruct (state c) eqn:Es; simplify_eq/=.
      rewrite list_lookup_insert_eq by (by eapply lookup_lt_Some). done.
    + rewrite Ec. done.
Qed.

(** ** Python strings *)

Lemma lstrip_head s c s' : lstrip s = String c s' → is_space c = false.
Proof.
  induction s as [|a s IH]; simpl; [done|].
  destruct (is_space a) eqn:E; [done|]. intros [= <- <-]. done.
Qed.

Lemma last_char_of_list l :
  last_char (string_of_list_ascii l) = last l.
Proof.
  induction l as [|a l IH]; [done|]. simpl.
  destruct l as [|b l]; [done|]. simpl in *. done.
Qed.

Lemma last_char_rev_string s :
  last_char (rev_string s) = match s with String c _ => Some c | EmptyString => None end.
Proof.
  unfold rev_string. rewrite last_char_of_list.
  destruct s as [|c s]; [done|]. simpl. by rewrite last_snoc.
Qed.

Lemma last_char_strip s c : last_char (strip s) = Some c → is_space c = false.
Proof.
  unfold strip. rewrite last_char_rev_string.
  destruct (lstrip (rev_string (lstrip s))) as [|a t] eqn:E; [done|].
  intros [= <-]. by eapply lstrip_head.
Qed.

Lemma word_run_all s :
  last_char s ≠ Some "010"%char → word_run_to_end s = all_word s.
Proof.
  induction s as [|c s IH]; [done|]. intros Hl. simpl.
  destruct (word_char c) eqn:Ew; simpl.
  - apply IH. destruct s; [done|]. exact Hl.
  - apply andb_false_iff.
    destruct (bool_decide_reflect (c = "010"%char)) as [->|]; [|by left].
    right. apply bool_decide_eq_false. intros ->. by apply Hl.
Qed.

Lemma username_check u :
  last_char u ≠ Some "010"%char →
  negb ((3 <=? String.length u) && (String.length u <=? 25))
    || negb (re_match_username u) = false
  ↔ valid_username u.
Proof.
  intros Hl. unfold valid_username.
  rewrite orb_false_iff, !negb_false_iff, andb_true_iff, Nat.leb_le, Nat.leb_le.
  assert (3 ≤ String.length u → re_match_username u = all_word u) as Hre.
  { destruct u as [|c u]; simpl; [lia|]. intros _.
    destruct (word_char c); simpl; [|done]. apply word_run_all.
    destruct u; [done|exact Hl]. }
  split; intros [[H1 H2] H3]; (split; [done|]); by rewrite Hre in * by done.
Qed.

(** ** The login loop *)

Lemma stripped_no_newline s : last_char (strip s) ≠ Some "010"%char.
Proof. intros H. by apply last_char_strip in H. Qed.

Lemma ask_login_pass_spec round w :
  ask_login_pass round w =
  match wait_for_confirm round (add_note PrintLoginRequest w) with
  | (Return _, w1) =>
      match offending (login_data_of w1) with
      | Some fld => (Continue, clear_field fld w1)
      | None => (Leave (Return (login_data_of w1)), w1)
      end
  | (Raise e, w1) => (Leave (Raise e), w1)
  | (Suspended, w1) => (Leave Suspended, w1)
  end.
Proof.
  unfold ask_login_pass.
  destruct (wait_for_confirm round (add_note PrintLoginRequest w)) as [[[]|e|] w1]; try done.
  unfold offending, login_data_of. simpl.
  pose proof (username_check (strip (login_text w1)) (stripped_no_newline _)) as Hu.
  destruct (negb _ || negb _) eqn:E1.
  { rewrite decide_False; [done|]. intros Hv. apply Hu in Hv. congruence. }
  rewrite decide_True by (by apply Hu).
  destruct (String.length (password_text w1) <? 8) eqn:E2.
  { rewrite decide_False; [done|]. apply Nat.ltb_lt in E2. unfold valid_password. lia. }
  rewrite decide_True by (apply Nat.ltb_ge in E2; done).
  destruct (negb _ && _) eqn:E3.
  { rewrite decide_False; [done|]. apply andb_true_iff in E3 as [E3 E4].
    apply negb_true_iff, bool_decide_eq_false in E3. apply Nat.ltb_lt in E4.
    intros [?|?]; [done|lia]. }
  rewrite decide_True; [done|].
  apply andb_false_iff in E3 as [E3|E3].
  - left. apply negb_false_iff, bool_decide_eq_true in E3. done.
  - right. by apply Nat.ltb_ge in E3.
Qed.

Lemma offending_None d : offending d = None ↔ meets_constraints d.
Proof.
  unfold offending, meets_constraints. repeat case_decide; split; try done; tauto.
Qed.

(** C5, as the code has it.  The constraints are judged on the data of
    the confirmation: the username and the token stripped of the white
    space around them, the password as typed.  When a confirmation is
    rejected, exactly the field of the first failing constraint is
    cleared: the login field for a stripped username outside
    [[A-Za-z0-9_]{3,25}], else the password field for a password shorter
    than 8, else the token field for a non-empty stripped token shorter
    than 6; the other two fields, and everything else, stay as they were,
    and no rejection clears the whole form. *)
Theorem rejection_clears_only_offending_field (round : list action) (w w1 : world) :
  confirmation round w = Some w1 →
  let d := login_data_of w1 in
  (¬ valid_username (username d) →
     ask_login_pass round w = (Continue, with_login_text EmptyString w1)) ∧
  (valid_username (username d) → ¬ valid_password (password d) →
     ask_login_pass round w = (Continue, with_password_text EmptyString w1)) ∧
  (valid_username (username d) → valid_password (password d) →
   ¬ valid_token (token d) →
     ask_login_pass round w = (Continue, with_token_text EmptyString w1)) ∧
  (∀ w2, ask_login_pass round w = (Continue, w2) →
     (login_text w2 = login_text w1 ∧ password_text w2 = password_text w1
        ∧ token_text w2 = EmptyString)
     ∨ (login_text w2 = login_text w1 ∧ password_text w2 = EmptyString
        ∧ token_text w2 = token_text w1)
     ∨ (login_text w2 = EmptyString ∧ password_text w2 = password_text w1
        ∧ token_text w2 = token_text w1)).
Proof.
  unfold confirmation. intros Hc. rewrite ask_login_pass_spec.
  destruct (wait_for_confirm round (add_note PrintLoginRequest w)) as [[[]|e|] w0];
    simplify_eq.
  unfold offending.
  repeat split.
  - intros Hu. by rewrite decide_False.
  - intros Hu Hp. rewrite decide_True by done. by rewrite decide_False.
  - intros Hu Hp Ht. rewrite !decide_True by done. by rewrite decide_False.
  - intros w2. repeat case_decide; intros [= <-]; simpl; auto.
Qed.


(** ** A click is answered *)

Ltac norm :=
  repeat first
    [ progress simplify_eq/=
    | match goal with
      | H : context [ (_ ++ _) !! _ ] |- _ => rewrite lookup_app in H
      | H : context [ alter _ _ _ !! _ ] |- _ => rewrite list_lookup_alter in H
      | H : context [ <[_:=_]> _ !! _ ] |- _ => rewrite list_lookup_insert in H
      | |- context [ (_ ++ _) !! _ ] => rewrite lookup_app
      | |- context [ alter _ _ _ !! _ ] => rewrite list_lookup_alter
      | |- context [ <[_:=_]> _ !! _ ] => rewrite list_lookup_insert
      | H : ?l !! ?i = Some _ |- context [ ?l !! ?i ] => rewrite H
      | H : ?l !! ?i = None |- context [ ?l !! ?i ] => rewrite H
      | H : ?l !! ?i = Some _ |- _ => learn_hyp (lookup_lt_Some _ _ _ H)
      end
    | case_decide
    | case_match ].

Ltac fin :=
  intros; repeat match goal with H : _ ∧ _ |- _ => destruct H end;
  simplify_eq; try congruence; try done.

Ltac confirmed_tac Hr :=
  norm;
  try (split; [done|]; split; [done|]; eexists; split; [done|]; split; [done|]);
  simpl;
  try (destruct Hr as [Hr|(? & ? & ? & ?)]; [by left|right]; norm; mem;
       try (exfalso; lia); try tauto).

Lemma resume_preserves (P : world → Prop) b k w :
  (∀ f w, P w → P (remove_done_callback f k w)) →
  (∀ f w, P w → P (future_cancel f w)) →
  (∀ w, P w → P (cancel_close_wait k w)) →
  (∀ o w, P w → P (set_result k o w)) →
  P w → P (coro_unless_closed_resume b k w).
Proof.
  intros H1 H2 H3 H4 Hw. unfold coro_unless_closed_resume.
  destruct (calls w !! k) as [c|]; [|done]. destruct (result c); [done|].
  destruct (cancel_requested c); [by apply H4, H1|].
  destruct (done _), (bool_decide _), (event_is_set _); auto 10.
Qed.

Lemma settled_resume b k w f o :
  future_state_of f w = Settled o →
  future_state_of f (coro_unless_closed_resume b k w) = Settled o.
Proof.
  apply (resume_preserves (λ w, future_state_of f w = Settled o)).
  - intros g w0 H. by rewrite future_state_of_remove_done_callback.
  - intros g w0 H. revert H. unfold future_state_of, future_cancel, complete_future. norm; fin.
  - intros w0 H. unfold future_state_of. by rewrite futures_cancel_close_wait.
  - intros o' w0 H. unfold future_state_of. by rewrite futures_set_result.
Qed.

Lemma call_other_resume b k0 w k c :
  k0 ≠ k → calls w !! k = Some c →
  calls (coro_unless_closed_resume b k0 w) !! k = Some c.
Proof.
  intros Hne. apply (resume_preserves (λ w, calls w !! k = Some c)).
  - intros g w0 H. by rewrite calls_remove_done_callback.
  - intros g w0 H. by rewrite calls_future_cancel.
  - intros w0 H. unfold_prims. norm; fin.
  - intros o' w0 H. unfold_prims. norm; fin.
Qed.

Lemma ready_resume b k0 w h :
  h ∈ ready w → h ∈ ready (coro_unless_closed_resume b k0 w).
Proof.
  apply (resume_preserves (λ w, h ∈ ready w)).
  - intros g w0 H. unfold_prims. norm; fin.
  - intros g w0 H. unfold_prims. norm; mem.
  - intros w0 H. unfold_prims. norm; mem.
  - intros o' w0 H. unfold_prims. norm; fin.
Qed.

Lemma confirmed_call_tick b k f w :
  confirmed_call k f w → confirmed_call k f (exec (Tick b) w).
Proof.
  intros (Hev & Hf & c & Hc & Ha & Hr).
  assert (ev_value (exec (Tick b) w) = false) as Hev' by (by rewrite ev_value_exec).
  revert Hev'. simpl. destruct (ready w) as [|h rest] eqn:Er.
  { intros _. split; [done|]. split; [done|]. exists c. by rewrite Er. }
  destruct h as [k0|k0|k0|j]; simpl; intros Hev'.
  - unfold confirmed_call, future_state_of in *. unfold_prims. confirmed_tac Hr.
  - unfold confirmed_call, future_state_of in *. unfold_prims. confirmed_tac Hr.
  - split; [done|]. split; [by apply settled_resume|].
    destruct (decide (k0 = k)) as [->|Hne].
    + destruct Hr as [Hr|(Hr1 & Hr2 & Hr3 & Hr4)].
      * exists c. split; [|by auto].
        unfold coro_unless_closed_resume. simpl. by rewrite Hc, Hr.
      * assert (awaited c < length (futures w)) as Hlt.
        { unfold future_state_of in Hf. destruct (futures w !! f) eqn:E; [|done].
          subst f. by eapply lookup_lt_Some. }
        destruct (close_signal_decides_at_resumption b k c w rest Er Hc Hr1 Hr2 Hlt)
          as (_ & _ & _ & H4).
        specialize (H4 Hev (Returned PyNone)). rewrite Ha in H4. specialize (H4 Hf).
        assert (close_wait c ≠ Finished) as Hnf by (destruct Hr3; congruence).
        specialize (H4 Hnf). simpl in H4. rewrite Er in H4. simpl in H4.
        unfold call_result in H4.
        destruct (calls (coro_unless_closed_resume b k (with_ready rest w)) !! k)
          as [c'|] eqn:Ec'; [|done].
        exists c'. split; [done|]. split; [|by left].
        revert Ec'. unfold coro_unless_closed_resume. simpl. rewrite Hc, Hr1, Hr2.
        unfold_prims. norm; fin.
    + exists c. split; [by apply call_other_resume|]. split; [done|].
      destruct Hr as [Hr|(Hr1 & Hr2 & Hr3 & Hr4)]; [by left|right].
      repeat split; try done.
      destruct (woken c); apply ready_resume; simpl;
        apply elem_of_cons in Hr4 as [?|?]; simplify_eq; done.
  - unfold confirmed_call, future_state_of in *. unfold_prims. confirmed_tac Hr.
Qed.

Lemma texts_tick b w : texts (exec (Tick b) w) = texts w.
Proof.
  simpl. destruct (ready w) as [|h rest]; [done|].
  change (texts w) with (texts (with_ready rest w)). generalize (with_ready rest w).
  intros w0. destruct h; simpl.
  - unfold texts. frame.
  - unfold texts. frame.
  - apply (resume_preserves (λ w, texts w = texts w0)); try done;
      intros; unfold texts in *; unfold_prims; repeat case_match; simpl in *; done.
  - unfold texts. frame.
Qed.

Lemma await_ticks k f w m :
  confirmed_call k f w → backlog w ≤ m →
  ∃ w', await_call k (map Tick (replicate m true)) w = (Return PyNone, w')
        ∧ ev_value w' = false ∧ texts w' = texts w.
Proof.
  revert w. induction m as [|m IH]; intros w Hc Hb.
  - destruct Hc as (Hev & Hf & c & Hc & Ha & [Hr|(Hr1 & Hr2 & Hr3 & Hr4)]).
    + exists w. simpl. unfold call_result. by rewrite Hc, Hr.
    + exfalso. unfold backlog in Hb. destruct (ready w); [|simpl in Hb; lia].
      destruct (woken c); by apply elem_of_nil in Hr4.
  - pose proof Hc as (Hev & Hf & c & Hc' & Ha & [Hr|(Hr1 & Hr2 & Hr3 & Hr4)]).
    + exists w. simpl. unfold call_result. by rewrite Hc', Hr.
    + change (replicate (S m) true) with (true :: replicate m true).
      cbn [map await_call]. unfold call_result at 1. rewrite Hc', Hr1.
      destruct (IH (exec (Tick true) w)) as (w' & Hw' & Hev' & Ht).
      * by apply confirmed_call_tick.
      * assert (ready w ≠ []) as Hne
          by (intros E; rewrite E in Hr4; destruct (woken c); by apply elem_of_nil in Hr4).
        pose proof (backlog_tick true w Hne). lia.
      * exists w'. rewrite Hw'. split; [done|]. split; [done|].
        by rewrite Ht, texts_tick.
Qed.

Lemma lookup_snoc {A} (l : list A) x : (l ++ [x]) !! length l = Some x.
Proof. by apply list_lookup_middle. Qed.

Lemma insert_snoc {A} (l : list A) x y : <[length l := y]> (l ++ [x]) = l ++ [y].
Proof.
  rewrite insert_app_r_alt by lia. by rewrite Nat.sub_diag.
Qed.

Lemma await_call_step k a r w :
  call_result k w = None → await_call k (a :: r) w = await_call k r (exec a w).
Proof. intros H. simpl. by rewrite H. Qed.

Lemma enter_eq w :
  coro_unless_closed_enter (length (futures w))
    (with_confirm_enabled true
       (with_confirm_future (Some (length (futures w))) (snd (create_future w))))
  = (length (calls w), entered w).
Proof.
  unfold coro_unless_closed_enter, create_future, add_done_callback, schedule. simpl.
  rewrite lookup_snoc. simpl. by rewrite insert_snoc.
Qed.

Lemma click_eq l p t w :
  exec Click (with_token_text t (with_password_text p (with_login_text l (entered w))))
  = clicked l p t w.
Proof.
  simpl. unfold on_confirm, future_set_result, future_state_of, complete_future,
    schedule_all. simpl.
  repeat (rewrite lookup_snoc; simpl).
  rewrite ?insert_snoc. unfold clicked, with_ready, with_futures. simpl.
  by rewrite <- app_assoc.
Qed.

Lemma enter_and_click l p t m w :
  coro_unless_closed (length (futures w))
    (round_typing l p t m)
    (with_confirm_enabled true
       (with_confirm_future (Some (length (futures w))) (snd (create_future w))))
  = await_call (length (calls w)) (map Tick (replicate m true)) (clicked l p t w).
Proof.
  unfold coro_unless_closed. rewrite enter_eq. unfold round_typing.
  change ([Typing Login l; Typing Password p; Typing Token t; Click] ++ ?r)
    with (Typing Login l :: Typing Password p :: Typing Token t :: Click :: r).
  rewrite !await_call_step; [by rewrite <- click_eq|..];
    unfold call_result; simpl; by rewrite lookup_snoc.
Qed.

Lemma confirmed_call_clicked l p t w :
  ev_value w = false →
  confirmed_call (length (calls w)) (length (futures w)) (clicked l p t w).
Proof.
  intros Hev. split; [done|]. split.
  - unfold future_state_of, clicked. simpl. by rewrite lookup_snoc.
  - eexists. split; [apply lookup_snoc|]. split; [done|]. right. simpl.
    repeat split; auto. mem.
Qed.

Lemma round_typing_confirmed l p t w :
  ev_value w = false →
  ∃ m w1, confirmation (round_typing l p t m) w = Some w1
          ∧ texts w1 = (l, p, t) ∧ ev_value w1 = false.
Proof.
  intros Hev. set (w0 := add_note PrintLoginRequest w).
  exists (backlog (clicked l p t w0)).
  destruct (await_ticks _ _ _ (backlog (clicked l p t w0))
              (confirmed_call_clicked l p t w0 Hev) (le_n _)) as (w' & Hw & Hev' & Ht).
  exists (with_confirm_future None (with_confirm_enabled false w')).
  split; [|done].
  unfold confirmation, wait_for_confirm, try_finally. fold w0.
  change (create_future w0) with (length (futures w0), snd (create_future w0)).
  cbv beta iota. rewrite enter_and_click, Hw. done.
Qed.

Lemma ask_login_loop_returns
    (rounds : list (list action)) (w w' : world) (d : LoginData) :
  ask_login_loop rounds w = (Return d, w') ↔
  ∃ n round wn,
    rounds !! n = Some round ∧
    after_rejections (take n rounds) w = Some wn ∧
    confirmation round wn = Some w' ∧
    d = login_data_of w' ∧
    meets_constraints d.
Proof.
  revert w. induction rounds as [|r rest IH]; intros w; simpl.
  - split; [done|]. intros (n & round & wn & Hl & _). by rewrite lookup_nil in Hl.
  - rewrite ask_login_pass_spec.
    split.
    + destruct (wait_for_confirm r (add_note PrintLoginRequest w)) as [[[]|e|] w1] eqn:Ew;
        try done.
      destruct (offending (login_data_of w1)) as [fld|] eqn:Eo.
      * intros H. apply IH in H as (n & round & wn & Hl & Hr & Hc & Hd & Hm).
        exists (S n), round, wn. simpl. unfold confirmation at 1. rewrite Ew, Eo. done.
      * intros [= <- <-]. exists 0, r, w. simpl. unfold confirmation. rewrite Ew.
        repeat split; try done; by apply offending_None.
    + intros (n & round & wn & Hl & Hr & Hc & Hd & Hm).
      destruct n as [|n]; simpl in *; simplify_eq.
      * unfold confirmation in Hc.
        destruct (wait_for_confirm round (add_note PrintLoginRequest wn)) as [[[]|e|] w1];
          simplify_eq.
        apply offending_None in Hm. by rewrite Hm.
      * unfold confirmation in Hr.
        destruct (wait_for_confirm r (add_note PrintLoginRequest w)) as [[[]|e|] w1];
          try done.
        destruct (offending (login_data_of w1)) as [fld|]; [|done].
        apply IH. exists n, round, wn. done.
Qed.

Lemma rejections_exist n w :
  ev_value w = false →
  ∃ rounds wn, length rounds = n ∧ after_rejections rounds w = Some wn
               ∧ ev_value wn = false.
Proof.
  revert w. induction n as [|n IH]; intros w Hev.
  - exists [], w. done.
  - destruct (round_typing_confirmed "ab" "short" "" w Hev) as (m & w1 & Hc & Ht & Hev1).
    destruct (IH (clear_field Login w1) Hev1) as (rounds & wn & Hl & Hr & Hevn).
    exists (round_typing "ab" "short" "" m :: rounds), wn.
    split; [simpl; by rewrite Hl|]. split; [|done].
    simpl. rewrite Hc.
    assert (login_data_of w1 = mkLoginData "ab" "short" "") as ->.
    { unfold login_data_of. unfold texts in Ht.
      injection Ht as -> -> ->. reflexivity. }
    assert (offending (mkLoginData "ab" "short" "") = Some Login) as ->; [|done].
    unfold offending. rewrite decide_False; [done|].
    unfold valid_username. cbn. lia.
Qed.

(** C4, as the code has it.  The data of a confirmation are the text of
    the login field and of the token field, each stripped of the white
    space around it, and the text of the password field as it is.
    [ask_login] returns a LoginData exactly when some confirmation brings
    data that meet the three constraints (username of 3 to 25 characters
    out of [[A-Za-z0-9_]], password of at least 8, token empty or of at
    least 6) after confirmations that were each rejected, and what it
    returns is the data of that first passing confirmation; and for every
    number [n] there are inputs with [n] rejected confirmations after
    which it still returns: the loop never gives up. *)
Theorem ask_login_returns_first_valid (w : world) :
  (∀ rounds d w',
     ask_login rounds w = (Return d, w') ↔
     ∃ n round wn,
       rounds !! n = Some round ∧
       after_rejections (take n rounds) (ask_login_start w) = Some wn ∧
       confirmation round wn = Some w' ∧
       d = login_data_of w' ∧
       meets_constraints d) ∧
  (ev_value w = false →
   ∀ n, ∃ rounds d w',
     length rounds = S n ∧
     is_Some (after_rejections (take n rounds) (ask_login_start w)) ∧
     ask_login rounds w = (Return d, w')).
Proof.
  split.
  - intros rounds d w'. apply ask_login_loop_returns.
  - intros Hev n.
    destruct (rejections_exist n (ask_login_start w) Hev) as (rounds & wn & Hl & Hr & Hevn).
    destruct (round_typing_confirmed "valid_user" "longenough1" "" wn Hevn)
      as (m & w' & Hc & Ht & _).
    exists (rounds ++ [round_typing "valid_user" "longenough1" "" m]),
           (login_data_of w'), w'.
    assert (take n (rounds ++ [round_typing "valid_user" "longenough1" "" m]) = rounds)
      as Htake by (rewrite <- Hl; apply take_app_length).
    split; [rewrite length_app; simpl; lia|]. split; [by rewrite Htake, Hr|].
    apply ask_login_loop_returns.
    exists n, (round_typing "valid_user" "longenough1" "" m), wn.
    split; [rewrite <- Hl; apply list_lookup_middle; done|].
    split; [by rewrite Htake|]. split; [done|]. split; [done|].
    unfold login_data_of. unfold texts in Ht. injection Ht as -> -> ->.
    unfold meets_constraints, valid_username, valid_password, valid_token.
    vm_compute. repeat split; try lia. by left.
Qed.

Lemma ask_login_returns_first_valid_witness :
  ev_value init = false ∧
  (∃ w', ask_login scenario init
         = (Return (mkLoginData "valid_user" "longenough1" ""), w')) ∧
  (∃ rounds d w', length rounds = 4 ∧ ask_login rounds init = (Return d, w')).
Proof.
  destruct (ask_login_returns_first_valid init) as [Hiff Hex].
  split; [done|]. split.
  - eexists. apply Hiff.
    exists 2. eexists. eexists.
    split; [reflexivity|]. split; [vm_compute; reflexivity|].
    split; [vm_compute; reflexivity|]. split; [vm_compute; reflexivity|].
    unfold meets_constraints, valid_username, valid_password, valid_token. simpl.
    repeat split; try lia. by left.
  - destruct (Hex eq_refl 3) as (rounds & d & w' & Hl & _ & Hr). eauto.
Defined.

(** ** Examples for the confirmation rendezvous and the login loop *)

Lemma wait_for_confirm_releases_witness :
  (fst (wait_for_confirm round_click init) = Return tt
   ∧ confirm_enabled (snd (wait_for_confirm round_click init)) = false
   ∧ confirm_future (snd (wait_for_confirm round_click init)) = None) ∧
  (fst (wait_for_confirm round_close init) = Raise ExitRequest
   ∧ confirm_enabled (snd (wait_for_confirm round_close init)) = false
   ∧ confirm_future (snd (wait_for_confirm round_close init)) = None) ∧
  (fst (wait_for_confirm round_cancel init) = Raise CancelledError
   ∧ confirm_enabled (snd (wait_for_confirm round_cancel init)) = false
   ∧ confirm_future (snd (wait_for_confirm round_cancel init)) = None).
Proof.
  split; [|split].
  - split; [vm_compute; reflexivity|].
    apply (wait_for_confirm_releases round_click init _ _ (surjective_pairing _)).
    vm_compute. discriminate.
  - split; [vm_compute; reflexivity|].
    apply (wait_for_confirm_releases round_close init _ _ (surjective_pairing _)).
    vm_compute. discriminate.
  - split; [vm_compute; reflexivity|].
    apply (wait_for_confirm_releases round_cancel init _ _ (surjective_pairing _)).
    vm_compute. discriminate.
Defined.

Lemma on_confirm_without_request_witness :
  outstanding init = false ∧ on_confirm init = (Return tt, init) ∧
  outstanding (entered init) = true ∧
  outstanding (snd (on_confirm (entered init))) = false ∧
  on_confirm (snd (on_confirm (entered init)))
  = (Return tt, snd (on_confirm (entered init))).
Proof.
  split; [reflexivity|]. split.
  - by apply (on_confirm_without_request init).
  - split; [reflexivity|]. split; [reflexivity|].
    apply (on_confirm_without_request (entered init)).
Defined.

Lemma rejection_clears_only_offending_field_witness :
  ∃ round w1,
    scenario !! 0 = Some round ∧
    confirmation round (ask_login_start init) = Some w1 ∧
    texts w1 = ("ab", "short", "")%string ∧
    ask_login_pass round (ask_login_start init)
    = (Continue, with_login_text EmptyString w1).
Proof.
  eexists. eexists. split; [reflexivity|].
  split; [vm_compute; reflexivity|]. split; [reflexivity|].
  eapply rejection_clears_only_offending_field; [vm_compute; reflexivity|].
  unfold valid_username. vm_compute. lia.
Defined.

(** C4, read on the field values, fails: with blanks typed around a good
    username and a token of blanks only, [ask_login] returns although the
    text of the login field is not in [[A-Za-z0-9_]{3,25}] and the text of
    the token field is neither empty nor of 6 characters, and what it
    returns is not what stands in the fields. *)
Lemma returns_field_values_fails :
  ∃ w',
    ask_login padded_input init = (Return (mkLoginData "abc" "longenough1" ""), w') ∧
    field_values w' = mkLoginData "  abc  " "longenough1" "   " ∧
    ¬ valid_username (username (field_values w')) ∧
    ¬ valid_token (token (field_values w')) ∧
    ¬ returns_field_values.
Proof.
  exists (snd (ask_login padded_input init)).
  assert (ask_login padded_input init
          = (Return (mkLoginData "abc" "longenough1" ""),
             snd (ask_login padded_input init))) as Hr.
  { assert (fst (ask_login padded_input init)
            = Return (mkLoginData "abc" "longenough1" "")) as H1
      by (vm_compute; reflexivity).
    rewrite <- H1. apply surjective_pairing. }
  assert (field_values (snd (ask_login padded_input init))
          = mkLoginData "  abc  " "longenough1" "   ") as Hf
    by (vm_compute; reflexivity).
  split; [exact Hr|]. split; [exact Hf|]. rewrite Hf.
  split; [|split].
  - intros [_ Hw]. vm_compute in Hw. discriminate.
  - intros [Ht|Ht]; [discriminate|]. vm_compute in Ht. lia.
  - intros H. destruct (H _ _ _ _ Hr) as [_ Hd]. rewrite Hf in Hd. discriminate.
Qed.

(** C5, read on the field value, fails: the login field holds a good
    username followed by a blank, which is outside [[A-Za-z0-9_]{3,25}],
    and the password is too short; the rejection empties the password
    field and leaves the login field as it is. *)
Lemma bad_username_field_cleared_fails :
  ∃ w1,
    confirmation trailing_blank (ask_login_start init) = Some w1 ∧
    texts w1 = ("myname ", "short", "")%string ∧
    ¬ valid_username (login_text w1) ∧
    ask_login_pass trailing_blank (ask_login_start init)
    = (Continue, with_password_text EmptyString w1) ∧
    ¬ bad_username_field_cleared.
Proof.
  pose (W := default init (confirmation trailing_blank (ask_login_start init))).
  assert (confirmation trailing_blank (ask_login_start init) = Some W) as Hc
    by (vm_compute; reflexivity).
  assert (texts W = ("myname ", "short", "")%string) as Ht
    by (vm_compute; reflexivity).
  assert (login_text W = "myname "%string) as Hl by (vm_compute; reflexivity).
  assert (ask_login_pass trailing_blank (ask_login_start init)
          = (Continue, with_password_text EmptyString W)) as Hp
    by (vm_compute; reflexivity).
  clearbody W. exists W.
  assert (¬ valid_username (login_text W)) as Hn.
  { rewrite Hl. intros [_ Hword]. vm_compute in Hword. discriminate. }
  split; [exact Hc|]. split; [exact Ht|]. split; [exact Hn|]. split; [exact Hp|].
  intros H. specialize (H _ _ _ Hc Hn). rewrite Hp in H.
  apply (f_equal (λ r, login_text (snd r))) in H. cbn in H.
  rewrite Hl in H. discriminate.
Qed.

(** ** ConsoleOutput.print *)

Section ConsoleOutputFacts.
Import ConsoleOutput.

Lemma append_cons x (a b : string) : String x a +:+ b = String x (a +:+ b).
Proof. reflexivity. Qed.

Lemma append_nil (b : string) : EmptyString +:+ b = b.
Proof. reflexivity. Qed.

Lemma append_assoc (a b c : string) : (a +:+ b) +:+ c = a +:+ (b +:+ c).
Proof. induction a as [|x a IH]; [done|]. rewrite !append_cons. by rewrite IH. Qed.

Lemma contains_newline_append a b :
  contains_newline (a +:+ b) = contains_newline a || contains_newline b.
Proof.
  induction a as [|x a IH]; [done|]. rewrite append_cons. simpl.
  case_decide; [done|]. exact IH.
Qed.

Lemma lines_nonempty s : lines s ≠ [].
Proof.
  destruct s as [|c s]; simpl; [done|]. case_decide; [done|].
  destruct (lines s); done.
Qed.

Lemma lines_append a b :
  contains_newline a = false →
  lines (a +:+ b) =
  match lines b with
  | l :: ls => (a +:+ l) :: ls
  | [] => []
  end.
Proof.
  induction a as [|x a IH].
  - intros _. rewrite append_nil. destruct (lines b); by rewrite ?append_nil.
  - rewrite append_cons. simpl. case_decide; [done|]. intros Ha. rewrite (IH Ha).
    pose proof (lines_nonempty b). destruct (lines b); [done|].
    by rewrite append_cons.
Qed.

Lemma lines_replace_newline p s :
  contains_newline p = false →
  lines (replace_newline (String newline p) s) =
  match lines s with
  | l :: ls => l :: map (λ l, p +:+ l) ls
  | [] => []
  end.
Proof.
  intros Hp. induction s as [|c s IH]; [done|].
  pose proof (lines_nonempty s) as Hne.
  cbn [replace_newline lines].
  destruct (decide (c = newline)) as [->|Hc].
  - rewrite append_cons. cbn [lines]. rewrite decide_True by done.
    rewrite (lines_append _ _ Hp), IH. by destruct (lines s).
  - cbn [lines]. rewrite decide_False by done. rewrite IH. by destruct (lines s).
Qed.

Lemma replace_newline_absent p s :
  contains_newline s = false → replace_newline p s = s.
Proof.
  induction s as [|c s IH]; simpl; [done|]. case_decide; [done|].
  intros Hs. by rewrite IH.
Qed.

(** C9. Whatever the message, when the stamp itself has no newline, the
    text that [print] appends has exactly one line per line of the
    message, and each of them is the stamp, [": "], and that line. *)
Theorem print_stamps_every_line (stamp message : string) (output : list string) :
  contains_newline stamp = false →
  ∃ text,
    print stamp message output = output ++ [text] ∧
    lines text = map (λ l, stamp +:+ ": " +:+ l) (lines message) ∧
    length (lines text) = length (lines message).
Proof.
  intros Hs. exists (rendered stamp message). split; [done|].
  assert (lines (rendered stamp message)
          = map (λ l, stamp +:+ ": " +:+ l) (lines message)) as E.
  { assert (contains_newline (stamp +:+ ": ") = false) as Hp
      by (by rewrite contains_newline_append, Hs).
    assert (rendered stamp message
            = (stamp +:+ ": ")
              +:+ replace_newline (String newline (stamp +:+ ": ")) message) as ->.
    { unfold rendered. rewrite append_assoc.
      destruct (contains_newline message) eqn:E; [done|].
      by rewrite replace_newline_absent. }
    rewrite (lines_append _ _ Hp), (lines_replace_newline _ _ Hp).
    pose proof (lines_nonempty message).
    destruct (lines message) as [|l ls]; [done|]. simpl.
    rewrite append_assoc. f_equal. apply map_ext. intros. by rewrite append_assoc. }
  split; [done|]. by rewrite E, length_map.
Qed.

Lemma print_stamps_every_line_witness :
  contains_newline "12:34:56" = false ∧
  ∃ text,
    print "12:34:56" (String "a" (String newline (String newline "b"))) [] = [text] ∧
    lines text = ["12:34:56: a"; "12:34:56: "; "12:34:56: b"]%string.
Proof.
  split; [reflexivity|].
  destruct (print_stamps_every_line "12:34:56"
              (String "a" (String newline (String newline "b"))) [] eq_refl)
    as (text & Hp & Hl & _).
  exists text. split; [exact Hp|]. rewrite Hl. reflexivity.
Defined.

End ConsoleOutputFacts.

(** ** WebsocketStatus.update *)

Section WebsocketStatusFacts.
Import WebsocketStatus.
Local Open Scope Z_scope.

Variable MAX_WEBSOCKETS : Z.
Variable WS_TOPICS_LIMIT : Z.

Abbreviation update := (WebsocketStatus.update MAX_WEBSOCKETS WS_TOPICS_LIMIT).
Abbreviation rows_present := (WebsocketStatus.rows_present MAX_WEBSOCKETS).

Lemma init_rows_fold (l : list Z) (t : gmap (Z * Z) string) idx col :
  (col = 1 ∨ col = 2) →
  idx ∈ l ∨ is_Some (t !! (idx, col)) →
  is_Some (foldl (λ t idx, <[(idx, 2) := EmptyString]>
                             (<[(idx, 1) := EmptyString]>
                                (<[(idx, 0) := pretty idx]> t))) t l !! (idx, col)).
Proof.
  intros Hcol. revert t. induction l as [|x l IH]; intros t H; simpl.
  - destruct H as [H|H]; [by apply elem_of_nil in H|done].
  - apply IH. destruct (decide (x = idx)) as [->|Hne].
    + right. destruct Hcol as [-> | ->].
      * rewrite lookup_insert_ne by congruence. rewrite lookup_insert_eq. by eexists.
      * rewrite lookup_insert_eq. by eexists.
    + destruct H as [H|H].
      * left. apply elem_of_cons in H as [?|?]; [congruence|done].
      * right. rewrite !lookup_insert_ne by congruence. done.
Qed.

Lemma rows_present_init : rows_present (WebsocketStatus.init MAX_WEBSOCKETS).
Proof.
  intros idx Hidx. unfold WebsocketStatus.init. simpl.
  assert (idx ∈ seqZ 0 MAX_WEBSOCKETS) as Hin by (apply elem_of_seqZ; lia).
  split; apply init_rows_fold; auto.
Qed.

(** C10. Outside [0, MAX_WEBSOCKETS) [update] raises nothing and leaves
    the table and the items as they were.  Inside, on a table that has its
    rows, it raises nothing, writes the status into column 1 and
    ["topics/WS_TOPICS_LIMIT"] into column 2 of that row, stores the entry,
    keeps the old value (or [""] and 0 for a row without entry) of
    whichever of the two was not given, and touches no other cell or
    entry. *)
Theorem update_in_and_out_of_range
    (idx : Z) (new_status : option string) (new_topics : option Z) (w : widget) :
  (¬ (0 ≤ idx < MAX_WEBSOCKETS) → update idx new_status new_topics w = (Fine tt, w)) ∧
  (0 ≤ idx < MAX_WEBSOCKETS → rows_present w →
   ∃ w',
     update idx new_status new_topics w = (Fine tt, w') ∧
     let it := merged idx new_status new_topics w in
     table w' !! (idx, 1) = Some (status it) ∧
     table w' !! (idx, 2) = Some (pretty (topics it) +:+ "/" +:+ pretty WS_TOPICS_LIMIT) ∧
     items w' !! idx = Some it ∧
     (∀ cell, cell ≠ (idx, 1) → cell ≠ (idx, 2) → table w' !! cell = table w !! cell) ∧
     (∀ j, j ≠ idx → items w' !! j = items w !! j) ∧
     rows_present w').
Proof.
  split.
  - intros Hout. unfold WebsocketStatus.update.
    destruct (bool_decide (idx < 0)) eqn:E1; [done|].
    destruct (bool_decide (idx >= MAX_WEBSOCKETS)) eqn:E2; [done|].
    apply bool_decide_eq_false in E1, E2. lia.
  - intros Hin Hrows. unfold WebsocketStatus.update.
    rewrite bool_decide_eq_false_2 by lia. rewrite bool_decide_eq_false_2 by lia.
    simpl.
    set (it0 := default (Item EmptyString 0) (items w !! idx)).
    set (it1 := match new_status with Some s => Item s (topics it0) | None => it0 end).
    set (it := match new_topics with Some n => Item (status it1) n | None => it1 end).
    assert (it = merged idx new_status new_topics w) as Hit.
    { unfold it, it1, merged. fold it0.
      destruct new_status, new_topics; simpl; try done; by destruct it0. }
    destruct (Hrows idx Hin) as [[c1 H1] [c2 H2]].
    unfold set_text. rewrite H1. simpl.
    rewrite lookup_insert_ne by congruence. rewrite H2.
    eexists. split; [done|]. cbv zeta. rewrite <- Hit. cbn [table items].
    assert (status it = default (status it0) new_status) as Hs
      by (rewrite Hit; reflexivity).
    assert (topics it = default (topics it0) new_topics) as Ht
      by (rewrite Hit; reflexivity).
    split.
    { rewrite lookup_insert_ne by congruence. rewrite lookup_insert_eq. by rewrite Hs. }
    split; [rewrite lookup_insert_eq; by rewrite Ht|].
    split; [by rewrite lookup_insert_eq|].
    split; [intros cell Ha Hb; by rewrite !lookup_insert_ne|].
    split; [intros j Hj; by rewrite lookup_insert_ne|].
    intros j Hj. simpl. destruct (Hrows j Hj) as [Hj1 Hj2].
    split.
    + destruct (decide (j = idx)) as [->|Hne].
      * rewrite lookup_insert_ne by congruence. rewrite lookup_insert_eq. by eexists.
      * rewrite !lookup_insert_ne by congruence. done.
    + destruct (decide (j = idx)) as [->|Hne].
      * rewrite lookup_insert_eq. by eexists.
      * rewrite !lookup_insert_ne by congruence. done.
Qed.

End WebsocketStatusFacts.

Lemma update_in_and_out_of_range_witness :
  let w0 := WebsocketStatus.init 8 in
  WebsocketStatus.rows_present 8 w0 ∧
  WebsocketStatus.update 8 50 8 (Some "up"%string) (Some 3%Z) w0
  = (WebsocketStatus.Fine tt, w0) ∧
  ∃ w1 w2,
    WebsocketStatus.update 8 50 2 (Some "up"%string) (Some 3%Z) w0
    = (WebsocketStatus.Fine tt, w1) ∧
    WebsocketStatus.table w1 !! (2%Z, 2%Z) = Some "3/50"%string ∧
    WebsocketStatus.update 8 50 2 None (Some 7%Z) w1 = (WebsocketStatus.Fine tt, w2) ∧
    WebsocketStatus.table w2 !! (2%Z, 1%Z) = Some "up"%string ∧
    WebsocketStatus.table w2 !! (2%Z, 2%Z) = Some "7/50"%string.
Proof.
  intros w0.
  assert (WebsocketStatus.rows_present 8 w0) as Hrows by apply rows_present_init.
  split; [done|]. split.
  - apply (update_in_and_out_of_range 8 50 8 (Some "up"%string) (Some 3%Z) w0). lia.
  - destruct (update_in_and_out_of_range 8 50 2 (Some "up"%string) (Some 3%Z) w0)
      as [_ H]. destruct (H ltac:(lia) Hrows) as (w1 & E1 & _ & T1 & I1 & _ & _ & R1).
    destruct (update_in_and_out_of_range 8 50 2 None (Some 7%Z) w1) as [_ H'].
    destruct (H' ltac:(lia) R1) as (w2 & E2 & S2 & T2 & _).
    exists w1, w2. split; [done|]. split; [exact T1|]. split; [done|].
    unfold WebsocketStatus.merged in S2, T2. rewrite I1 in S2, T2. simpl in S2, T2. done.
Defined.
(** ** QtImageCache.get_icon *)

Section QtImageCacheFacts.
Import QtImageCache.
Local Open Scope Z_scope.

Variable sha1_hex : string → string.
Variable dir : string.
Variable decode : list Z → option nat.

Abbreviation get_icon := (QtImageCache.get_icon sha1_hex dir decode).
Abbreviation missing := (QtImageCache.missing sha1_hex dir).
Abbreviation fetch_failed := (QtImageCache.fetch_failed decode).

Lemma request_throws f e : request f = Throws e → e = Cancellation.
Proof.
  unfold request, caught. repeat case_match; congruence.
Qed.


End QtImageCacheFacts.

(** ** WebsocketStatus: remove, and the widget in use *)

Section WebsocketStatusOpsFacts.
Import WebsocketStatus WebsocketStatusOps.
Local Open Scope Z_scope.

Variable MAX_WEBSOCKETS : Z.
Variable WS_TOPICS_LIMIT : Z.

Abbreviation update := (WebsocketStatus.update MAX_WEBSOCKETS WS_TOPICS_LIMIT).
Abbreviation remove := (WebsocketStatus.remove MAX_WEBSOCKETS).
Abbreviation rows_present := (WebsocketStatus.rows_present MAX_WEBSOCKETS).
Abbreviation in_sync := (WebsocketStatusOps.in_sync MAX_WEBSOCKETS WS_TOPICS_LIMIT).
Abbreviation run := (WebsocketStatusOps.run MAX_WEBSOCKETS WS_TOPICS_LIMIT).

(** X1. [remove] always drops the entry of [idx].  Outside
    [0, MAX_WEBSOCKETS) it does nothing else and raises nothing.  Inside, on
    a table that has its rows, it raises nothing, empties columns 1 and 2
    of that row and touches no other cell and no other entry. *)
Theorem remove_in_and_out_of_range (idx : Z) (w : widget) :
  (¬ (0 ≤ idx < MAX_WEBSOCKETS) →
   remove idx w = (Fine tt, Widget (table w) (delete idx (items w)))) ∧
  (0 ≤ idx < MAX_WEBSOCKETS → rows_present w →
   ∃ w',
     remove idx w = (Fine tt, w') ∧
     table w' !! (idx, 1) = Some EmptyString ∧
     table w' !! (idx, 2) = Some EmptyString ∧
     items w' !! idx = None ∧
     (∀ cell, cell ≠ (idx, 1) → cell ≠ (idx, 2) → table w' !! cell = table w !! cell) ∧
     (∀ j, j ≠ idx → items w' !! j = items w !! j) ∧
     rows_present w').
Proof.
  split.
  - intros Hout. unfold WebsocketStatus.remove.
    destruct (bool_decide (0 <= idx)) eqn:E1; [|done].
    destruct (bool_decide (idx < MAX_WEBSOCKETS)) eqn:E2; [|done].
    apply bool_decide_eq_true in E1, E2. lia.
  - intros Hin Hrows. unfold WebsocketStatus.remove.
    rewrite bool_decide_eq_true_2 by lia. rewrite bool_decide_eq_true_2 by lia.
    destruct (Hrows idx Hin) as [[c1 H1] [c2 H2]].
    unfold set_text. cbn [table items andb]. rewrite H1. cbn [table items].
    rewrite lookup_insert_ne by congruence. rewrite H2.
    eexists. split; [done|]. cbn [table items].
    split; [rewrite lookup_insert_ne by congruence; by rewrite lookup_insert_eq|].
    split; [by rewrite lookup_insert_eq|].
    split; [by rewrite lookup_delete_eq|].
    split; [intros cell Ha Hb; by rewrite !lookup_insert_ne|].
    split; [intros j Hj; by rewrite lookup_delete_ne|].
    intros j Hj. cbn [table]. destruct (Hrows j Hj) as [Hj1 Hj2].
    split.
    + destruct (decide (j = idx)) as [->|Hne].
      * rewrite lookup_insert_ne by congruence. rewrite lookup_insert_eq. by eexists.
      * rewrite !lookup_insert_ne by congruence. done.
    + destruct (decide (j = idx)) as [->|Hne].
      * rewrite lookup_insert_eq. by eexists.
      * rewrite !lookup_insert_ne by congruence. done.
Qed.

Lemma insert_twice_apart {A} (k1 k2 : Z * Z) (a1 a2 b1 b2 : A) (t : gmap (Z * Z) A) :
  k1 ≠ k2 →
  <[k2 := b2]> (<[k1 := b1]> (<[k2 := a2]> (<[k1 := a1]> t)))
  = <[k2 := b2]> (<[k1 := b1]> t).
Proof.
  intros Hne. apply map_eq. intros k.
  destruct (decide (k = k2)) as [->|H2]; [by rewrite !lookup_insert_eq|].
  rewrite !(lookup_insert_ne _ k2 k) by done.
  destruct (decide (k = k1)) as [->|H1]; [by rewrite !lookup_insert_eq|].
  rewrite !(lookup_insert_ne _ k1 k) by done.
  rewrite (lookup_insert_ne _ k2 k) by done.
  rewrite (lookup_insert_ne _ k1 k) by done. done.
Qed.

(** X2. Two updates of a row in a row are one update: of the status and of
    the topics, the one given last is shown, and what the second call does
    not give is kept from the first. *)
Theorem update_twice (idx : Z) (s1 s2 : option string) (t1 t2 : option Z)
    (w w1 : widget) :
  update idx s1 t1 w = (Fine tt, w1) →
  update idx s2 t2 w1 = update idx (later s2 s1) (later t2 t1) w.
Proof.
  unfold WebsocketStatus.update.
  destruct (bool_decide (idx < 0) || bool_decide (idx >= MAX_WEBSOCKETS)) eqn:E.
  { by intros [= <-]. }
  cbn [table items]. unfold set_text.
  destruct (table w !! (idx, 1)) as [c1|] eqn:H1; [|done].
  cbn [table items]. rewrite lookup_insert_ne by congruence.
  destruct (table w !! (idx, 2)) as [c2|] eqn:H2; [|done].
  intros [= <-]. cbn [table items].
  rewrite lookup_insert_eq. cbn [default].
  rewrite lookup_insert_ne by congruence. rewrite lookup_insert_eq.
  rewrite lookup_insert_ne by congruence. rewrite lookup_insert_eq.
  rewrite insert_insert_eq.
  rewrite insert_twice_apart by congruence.
  rewrite (lookup_insert_ne (table w) (idx, 1) (idx, 2)) by congruence. rewrite H2.
  destruct (default (Item EmptyString 0) (items w !! idx)) as [st tp].
  destruct s1, s2, t1, t2; reflexivity.
Qed.

Lemma init_fold (l : list Z) (t : gmap (Z * Z) string) idx :
  idx ∈ l →
  let t' := foldl (λ t idx, <[(idx, 2) := EmptyString]>
                              (<[(idx, 1) := EmptyString]>
                                 (<[(idx, 0) := pretty idx]> t))) t l in
  t' !! (idx, 0) = Some (pretty idx) ∧
  t' !! (idx, 1) = Some EmptyString ∧
  t' !! (idx, 2) = Some EmptyString.
Proof.
  cbv zeta. revert t. induction l as [|x l IH] using rev_ind; intros t H.
  - by apply elem_of_nil in H.
  - rewrite foldl_app. cbn [foldl].
    destruct (decide (x = idx)) as [->|Hne].
    + split; [|split].
      * rewrite !lookup_insert_ne by congruence. by rewrite lookup_insert_eq.
      * rewrite lookup_insert_ne by congruence. by rewrite lookup_insert_eq.
      * by rewrite lookup_insert_eq.
    + rewrite !lookup_insert_ne by congruence. apply IH.
      apply elem_of_app in H as [H|H]; [done|].
      apply list_elem_of_singleton in H. congruence.
Qed.

Lemma in_sync_init : in_sync (WebsocketStatus.init MAX_WEBSOCKETS).
Proof.
  split.
  - intros idx Hidx. unfold WebsocketStatus.init. cbn [table items].
    rewrite lookup_empty. cbn.
    apply (init_fold (seqZ 0 MAX_WEBSOCKETS) ∅ idx). apply elem_of_seqZ. lia.
  - intros idx [it H]. unfold WebsocketStatus.init in H. cbn in H.
    by rewrite lookup_empty in H.
Qed.

Lemma in_sync_apply (o : op) (w : widget) :
  in_sync w →
  ∃ w', WebsocketStatusOps.apply MAX_WEBSOCKETS WS_TOPICS_LIMIT o w = (Fine tt, w') ∧
        in_sync w'.
Proof.
  intros [Hrows Hkeys]. destruct o as [idx s t|idx]; cbn [WebsocketStatusOps.apply].
  - unfold WebsocketStatus.update.
    destruct (bool_decide (idx < 0)) eqn:E1; [by eexists; split|].
    destruct (bool_decide (idx >= MAX_WEBSOCKETS)) eqn:E2; [by eexists; split|].
    apply bool_decide_eq_false in E1, E2. cbn [orb table items].
    destruct (Hrows idx ltac:(lia)) as (H0 & H1 & H2).
    unfold set_text. rewrite H1. cbn [table items].
    rewrite lookup_insert_ne by congruence. rewrite H2.
    eexists. split; [done|]. split; cbn [table items].
    + intros j Hj. destruct (Hrows j Hj) as (J0 & J1 & J2).
      destruct (decide (j = idx)) as [->|Hne].
      * rewrite lookup_insert_eq. split; [|split].
        -- rewrite !lookup_insert_ne by congruence. done.
        -- rewrite lookup_insert_ne by congruence. by rewrite lookup_insert_eq.
        -- by rewrite lookup_insert_eq.
      * rewrite !lookup_insert_ne by congruence. done.
    + intros j [it Hj]. destruct (decide (j = idx)) as [->|Hne]; [lia|].
      rewrite lookup_insert_ne in Hj by done. apply Hkeys. by eexists.
  - unfold WebsocketStatus.remove. cbn [table items].
    destruct (bool_decide (0 <= idx)) eqn:E1; cbn [andb].
    2:{ apply bool_decide_eq_false in E1.
        eexists. split; [done|]. split; cbn [table items].
        - intros j Hj. rewrite lookup_delete_ne by lia. by apply Hrows.
        - intros j [it Hj]. apply lookup_delete_Some in Hj as [_ Hj].
          apply Hkeys. by eexists. }
    destruct (bool_decide (idx < MAX_WEBSOCKETS)) eqn:E2.
    2:{ apply bool_decide_eq_false in E2.
        eexists. split; [done|]. split; cbn [table items].
        - intros j Hj. rewrite lookup_delete_ne by lia. by apply Hrows.
        - intros j [it Hj]. apply lookup_delete_Some in Hj as [_ Hj].
          apply Hkeys. by eexists. }
    apply bool_decide_eq_true in E1, E2.
    destruct (Hrows idx ltac:(lia)) as (H0 & H1 & H2).
    unfold set_text. rewrite H1. cbn [table items].
    rewrite lookup_insert_ne by congruence. rewrite H2.
    eexists. split; [done|]. split; cbn [table items].
    + intros j Hj. destruct (Hrows j Hj) as (J0 & J1 & J2).
      destruct (decide (j = idx)) as [->|Hne].
      * rewrite lookup_delete_eq. split; [|split].
        -- rewrite !lookup_insert_ne by congruence. done.
        -- rewrite lookup_insert_ne by congruence. by rewrite lookup_insert_eq.
        -- by rewrite lookup_insert_eq.
      * rewrite lookup_delete_ne by done. rewrite !lookup_insert_ne by congruence. done.
    + intros j [it Hj]. apply lookup_delete_Some in Hj as [_ Hj].
      apply Hkeys. by eexists.
Qed.

(** X3. Whatever calls of [update] and [remove] a widget gets after its
    construction, none raises, and afterwards the table shows the entries:
    each row its index, and the status and ["topics/WS_TOPICS_LIMIT"] of
    its entry or two empty cells without one. *)
Theorem table_shows_entries (ops : list op) :
  ∃ w, run ops (WebsocketStatus.init MAX_WEBSOCKETS) = (Fine tt, w) ∧ in_sync w.
Proof.
  generalize in_sync_init. generalize (WebsocketStatus.init MAX_WEBSOCKETS).
  induction ops as [|o ops IH]; intros w Hw.
  - by exists w.
  - cbn [WebsocketStatusOps.run].
    destruct (in_sync_apply o w Hw) as (w' & -> & Hw'). by apply IH.
Qed.

End WebsocketStatusOpsFacts.

Lemma remove_in_and_out_of_range_witness :
  let w0 := WebsocketStatus.init 8 in
  WebsocketStatus.rows_present 8 w0 ∧
  WebsocketStatus.remove 8 9 w0 = (WebsocketStatus.Fine tt, w0) ∧
  ∃ w1,
    WebsocketStatus.remove 8 2 w0 = (WebsocketStatus.Fine tt, w1) ∧
    WebsocketStatus.table w1 !! (2%Z, 1%Z) = Some EmptyString ∧
    WebsocketStatus.items w1 !! 2%Z = None.
Proof.
  intros w0.
  assert (WebsocketStatus.rows_present 8 w0) as Hrows by apply rows_present_init.
  split; [done|]. split.
  - destruct (remove_in_and_out_of_range 8 9 w0) as [H _]. rewrite H by lia.
    reflexivity.
  - destruct (remove_in_and_out_of_range 8 2 w0) as [_ H].
    destruct (H ltac:(lia) Hrows) as (w1 & E & T1 & _ & I & _).
    by exists w1.
Defined.

Lemma update_twice_witness :
  let w0 := WebsocketStatus.init 8 in
  ∃ w1,
    WebsocketStatus.update 8 50 2 (Some "up"%string) (Some 3%Z) w0
    = (WebsocketStatus.Fine tt, w1) ∧
    WebsocketStatus.update 8 50 2 None (Some 7%Z) w1
    = WebsocketStatus.update 8 50 2 (Some "up"%string) (Some 7%Z) w0.
Proof.
  intros w0. eexists. split; [vm_compute; reflexivity|].
  apply (update_twice 8 50 2 (Some "up"%string) None (Some 3%Z) (Some 7%Z) w0).
  vm_compute. reflexivity.
Defined.
(** ** QtImageCache: what is kept, and for how long *)

Section QtImageCacheKeeps.
Import QtImageCache.
Local Open Scope Z_scope.

Variable sha1_hex : string → string.
Variable dir : string.
Variable decode : list Z → option nat.

Abbreviation get_icon := (QtImageCache.get_icon sha1_hex dir decode).
Abbreviation path_for := (QtImageCache.path_for sha1_hex dir).

Lemma scaled_not_null p w h : is_null p = false → is_null (scaled p w h) = false.
Proof. by destruct p. Qed.

(** The pixmap [get_icon] builds from what the request brought. *)
Lemma built_not_null (p : pixmap) w h :
  is_null (if is_null p then Transparent w h else scaled p w h) = false.
Proof. destruct (is_null p) eqn:E; [done|]. by apply scaled_not_null. Qed.

(** X4. An icon once returned is returned again for the same URL and
    size, whatever the network and the disk do by then: the second call
    makes no request and leaves the cache as it is. *)
Theorem get_icon_memoised
    (url : string) (w h : Z) (f f' : fetch) (s s' : save) (c c' : cache) (i : icon) :
  get_icon url w h f s c = (Fine i, c') →
  get_icon url w h f' s' c' = (Fine i, c').
Proof.
  unfold QtImageCache.get_icon.
  destruct (mem c !! (url, w, h)) as [i0|] eqn:Em.
  { intros [= <- <-]. by rewrite Em. }
  destruct (load _ c) as [pix|].
  { intros [= <- <-]. cbn [mem]. by rewrite lookup_insert_eq. }
  destruct (request f) as [data|e]; [|done].
  destruct s as [| |[name|]]; try done;
    intros [= <- <-]; cbn [mem]; by rewrite lookup_insert_eq.
Qed.

(** X5. The memory cache only grows: a call of [get_icon] removes and
    replaces no icon, and adds none for another URL or size; on disk it
    writes at most the file of its own URL and size. *)
Theorem get_icon_keeps_icons
    (url : string) (w h : Z) (f : fetch) (s : save) (c c' : cache) (r : outcome_ icon) :
  get_icon url w h f s c = (r, c') →
  mem c ⊆ mem c' ∧
  (∀ key, key ≠ (url, w, h) → mem c' !! key = mem c !! key) ∧
  (∀ path, path ≠ path_for url w h → files c' !! path = files c !! path).
Proof.
  unfold QtImageCache.get_icon.
  destruct (mem c !! (url, w, h)) as [i0|] eqn:Em.
  { by intros [= <- <-]. }
  assert (∀ i files',
            (∀ path, path ≠ path_for url w h → files' !! path = files c !! path) →
            mem c ⊆ mem (Cache (<[(url, w, h) := i]> (mem c)) files') ∧
            (∀ key, key ≠ (url, w, h) →
                    mem (Cache (<[(url, w, h) := i]> (mem c)) files') !! key
                    = mem c !! key) ∧
            (∀ path, path ≠ path_for url w h →
                     files (Cache (<[(url, w, h) := i]> (mem c)) files') !! path
                     = files c !! path)) as Hins.
  { intros i files' Hf. cbn [mem files]. split; [by apply insert_subseteq|].
    split; [|done]. intros key Hk. by rewrite lookup_insert_ne. }
  destruct (load _ c) as [pix|].
  { intros [= <- <-]. by apply Hins. }
  destruct (request f) as [data|e]; [|by intros [= <- <-]].
  destruct s as [| |[name|]]; intros [= <- <-]; try done; apply Hins; try done.
  intros path Hp. by rewrite lookup_insert_ne.
Qed.

(** X6. What was saved is found again: when a call that found nothing in
    memory returns an icon and the save succeeds, a new cache over the
    same directory returns the same icon for that URL and size without a
    request, whatever the network does by then.  This holds as well for
    the transparent pixmap that stands for a failed fetch. *)
Theorem get_icon_saved_is_loaded
    (url : string) (w h : Z) (f f' : fetch) (s' : save) (c c' : cache) (i : icon) :
  mem c !! (url, w, h) = None →
  get_icon url w h f Saved c = (Fine i, c') →
  fst (get_icon url w h f' s' (Cache ∅ (files c'))) = Fine i.
Proof.
  intros Em. unfold QtImageCache.get_icon at 1. cbv zeta. rewrite Em.
  destruct (load (path_for url w h) c) as [pix|] eqn:El.
  { intros [= <- <-]. unfold QtImageCache.get_icon. cbv zeta. cbn [mem files].
    rewrite lookup_empty. unfold load in *. cbn [files]. by rewrite El. }
  destruct (request f) as [data|e]; [|done].
  intros [= <- <-]. unfold QtImageCache.get_icon. cbv zeta. cbn [mem files].
  rewrite lookup_empty. unfold load. cbn [files]. rewrite lookup_insert_eq.
  by rewrite built_not_null.
Qed.

(** X7. [get_icon] raises nothing but the cancellation of its task, and
    a call that is cancelled leaves both caches as they were. *)
Theorem get_icon_raises_cancellation_only
    (url : string) (w h : Z) (f : fetch) (s : save) (c c' : cache) (e : raised) :
  get_icon url w h f s c = (Throws e, c') →
  e = Cancellation ∧ c' = c ∧
  (request f = Throws Cancellation ∨ s = SaveRaises Cancellation).
Proof.
  unfold QtImageCache.get_icon.
  destruct (mem c !! (url, w, h)); [done|].
  destruct (load _ c); [done|].
  destruct (request f) as [data|e0] eqn:Ef.
  - destruct s as [| |[name|]]; try done. intros [= <- <-]. auto.
  - intros [= <- <-]. unfold request, caught in Ef.
    repeat case_match; simplify_eq; auto.
Qed.

End QtImageCacheKeeps.

Lemma get_icon_memoised_witness :
  let f := QtImageCache.RequestRaises (QtImageCache.AnException "ClientError") in
  let f' := QtImageCache.Response 200 (QtImageCache.ReadBytes [137; 80; 78; 71]%Z None) None in
  let c := QtImageCache.Cache ∅ ∅ in
  let r := QtImageCache.get_icon id "cache" (λ _, Some 0%nat) "u" 24 24 f
             QtImageCache.NotSaved c in
  fst r = QtImageCache.Fine (QtImageCache.Icon (QtImageCache.Transparent 24 24)) ∧
  QtImageCache.get_icon id "cache" (λ _, Some 0%nat) "u" 24 24 f' QtImageCache.Saved (snd r)
  = (QtImageCache.Fine (QtImageCache.Icon (QtImageCache.Transparent 24 24)), snd r).
Proof.
  intros f f' c r. split; [reflexivity|].
  apply (get_icon_memoised id "cache" (λ _, Some 0%nat) "u" 24 24 f f'
           QtImageCache.NotSaved QtImageCache.Saved c).
  reflexivity.
Defined.

Lemma get_icon_keeps_icons_witness :
  let f := QtImageCache.Response 200 (QtImageCache.ReadBytes [137; 80; 78; 71]%Z None) None in
  let c := QtImageCache.Cache ∅ ∅ in
  let r := QtImageCache.get_icon id "cache" (λ _, Some 0%nat) "u" 24 24 f
             QtImageCache.Saved c in
  let r' := QtImageCache.get_icon id "cache" (λ _, Some 1%nat) "v" 96 96 f
              QtImageCache.Saved (snd r) in
  QtImageCache.mem (snd r') !! ("u"%string, 24%Z, 24%Z)
  = Some (QtImageCache.Icon (QtImageCache.Scaled 0 24 24)).
Proof.
  intros f c r r'.
  destruct (get_icon_keeps_icons id "cache" (λ _, Some 1%nat) "v" 96 96 f
              QtImageCache.Saved (snd r) (snd r') (fst r') (surjective_pairing _))
    as (_ & H & _).
  rewrite H by discriminate. reflexivity.
Defined.

Lemma get_icon_saved_is_loaded_witness :
  let f := QtImageCache.Response 200 (QtImageCache.ReadBytes [137; 80; 78; 71]%Z None) None in
  let f' := QtImageCache.RequestRaises QtImageCache.Cancellation in
  let c := QtImageCache.Cache ∅ ∅ in
  let r := QtImageCache.get_icon id "cache" (λ _, Some 0%nat) "u" 24 24 f
             QtImageCache.Saved c in
  fst r = QtImageCache.Fine (QtImageCache.Icon (QtImageCache.Scaled 0 24 24)) ∧
  fst (QtImageCache.get_icon id "cache" (λ _, Some 0%nat) "u" 24 24 f'
         QtImageCache.NotSaved (QtImageCache.Cache ∅ (QtImageCache.files (snd r))))
  = QtImageCache.Fine (QtImageCache.Icon (QtImageCache.Scaled 0 24 24)).
Proof.
  intros f f' c r. split; [reflexivity|].
  apply (get_icon_saved_is_loaded id "cache" (λ _, Some 0%nat) "u" 24 24 f f'
           QtImageCache.NotSaved c (snd r)); reflexivity.
Defined.

Lemma get_icon_raises_cancellation_only_witness :
  let f := QtImageCache.Response 200 (QtImageCache.ReadRaises QtImageCache.Cancellation) None in
  let c := QtImageCache.Cache ∅ ∅ in
  ∃ e, QtImageCache.get_icon id "cache" (λ _, Some 0%nat) "u" 24 24 f QtImageCache.Saved c
       = (QtImageCache.Throws e, c) ∧ e = QtImageCache.Cancellation.
Proof.
  intros f c. eexists. split; [reflexivity|].
  eapply (get_icon_raises_cancellation_only id "cache" (λ _, Some 0%nat) "u" 24 24 f
            QtImageCache.Saved c c). reflexivity.
Defined.
(** ** _InventoryGrid: the width of the tiles *)

Section InventoryGridFacts.
Import InventoryGrid.
Local Open Scope Z_scope.

Lemma scan_spec vw spacing lo hi columns best :
  (∀ cols, cols ∈ columns → 0 < cols) →
  match scan vw spacing lo hi columns best with
  | None => best = None
  | Some (leftover, tile_w) =>
      best = Some (leftover, tile_w) ∨
      ∃ cols, cols ∈ columns ∧ lo ≤ tile_w ≤ hi ∧
              tile_w = (vw - spacing * (cols - 1) - 2) `div` cols ∧
              fits vw spacing cols tile_w ∧
              leftover = vw - (tile_w * cols + spacing * (cols - 1)) ∧ 2 ≤ leftover
  end.
Proof.
  revert best. induction columns as [|cols rest IH]; intros best Hpos.
  - cbn. destruct best as [[l t]|]; auto.
  - cbn [scan]. cbv zeta.
    assert (0 < cols) as Hc by (apply Hpos; apply elem_of_cons; auto).
    assert (∀ c, c ∈ rest → 0 < c) as Hrest
      by (intros c Hin; apply Hpos; apply elem_of_cons; auto).
    set (tile_w := (vw - spacing * (cols - 1) - 2) `div` cols).
    case_bool_decide as Hlo.
    { destruct best as [[l t]|]; auto. }
    case_bool_decide as Hhi.
    { specialize (IH best Hrest).
      destruct (scan vw spacing lo hi rest best) as [[l t]|]; [|done].
      destruct IH as [?|(c & Hin & ?)]; [by left|].
      right. exists c. split; [apply elem_of_cons; auto|done]. }
    assert (tile_w * cols ≤ vw - spacing * (cols - 1) - 2) as Hfit.
    { unfold tile_w. pose proof (Z.mul_div_le (vw - spacing * (cols - 1) - 2) cols Hc).
      lia. }
    assert (Z.max 0 (vw - (tile_w * cols + spacing * (cols - 1)))
            = vw - (tile_w * cols + spacing * (cols - 1))) as Hmax by lia.
    assert (∀ l t, Some (l, t) = Some (Z.max 0 (vw - (tile_w * cols + spacing * (cols - 1))),
                                      tile_w) →
                   ∃ c, c ∈ cols :: rest ∧ lo ≤ t ≤ hi ∧
                        t = (vw - spacing * (c - 1) - 2) `div` c ∧
                        fits vw spacing c t ∧
                        l = vw - (t * c + spacing * (c - 1)) ∧ 2 ≤ l) as Hnew.
    { intros l t [= -> ->]. exists cols. split; [apply elem_of_cons; auto|].
      unfold fits. repeat split; try lia; done. }
    match goal with |- context [scan _ _ _ _ rest ?b] => set (best' := b) end.
    specialize (IH best' Hrest).
    destruct (scan vw spacing lo hi rest best') as [[l t]|].
    + destruct IH as [Hb|(c & Hin & ?)].
      * unfold best' in Hb. destruct best as [[l0 t0]|].
        -- case_bool_decide; [right; by apply Hnew|left; done].
        -- right. by apply Hnew.
      * right. exists c. split; [apply elem_of_cons; auto|done].
    + unfold best' in IH. destruct best as [[l0 t0]|]; [|done].
      by case_bool_decide.
Qed.

(** X8. Whenever [_update_grid] sets the grid size, the tile is at least
    as wide as the least and at most as wide as the greatest tile width,
    whatever the width of the viewport, the spacing and the preferred
    width are, and as high as the tile height; a viewport without width
    leaves the grid as it is. *)
Theorem update_grid_tile_width_bounded (vw spacing : Z) (g : grid) :
  min_tile_w g ≤ max_tile_w g →
  (vw ≤ 0 → update_grid vw spacing g = g) ∧
  (0 < vw →
   ∃ tile_w, grid_size (update_grid vw spacing g) = Some (tile_w, tile_h g) ∧
             min_tile_w g ≤ tile_w ≤ max_tile_w g).
Proof.
  intros Hle. unfold update_grid. split; intros Hvw.
  - by rewrite bool_decide_eq_true_2.
  - rewrite bool_decide_eq_false_2 by lia. cbv zeta. cbn [grid_size].
    eexists. split; [done|].
    pose proof (scan_spec vw (Z.max 0 spacing) (min_tile_w g) (max_tile_w g)
                  (seqZ 1 19) None) as H.
    destruct (scan _ _ _ _ _ _) as [[l t]|]; [|lia].
    destruct H as [?|(c & _ & ? & _)]; [|done|done].
    intros c Hin. apply elem_of_seqZ in Hin. lia.
Qed.


Lemma handle_fields e vw spacing g :
  min_tile_w (handle e vw spacing g) = min_tile_w g ∧
  max_tile_w (handle e vw spacing g) = max_tile_w g ∧
  (80 ≤ tile_h g → 80 ≤ tile_h (handle e vw spacing g)) ∧
  (120 ≤ preferred_tile_w g → 120 ≤ preferred_tile_w (handle e vw spacing g)).
Proof.
  destruct e; cbn [handle]; unfold set_tile_height, set_preferred_tile_width,
    resizeEvent, update_grid; case_bool_decide; cbn; repeat split; lia.
Qed.

Lemma handle_grid_size e vw spacing g :
  min_tile_w g ≤ max_tile_w g →
  match grid_size g with
  | Some (tw, th) => min_tile_w g ≤ tw ≤ max_tile_w g ∧ 80 ≤ th
  | None => True
  end →
  80 ≤ tile_h g →
  match grid_size (handle e vw spacing g) with
  | Some (tw, th) => min_tile_w g ≤ tw ≤ max_tile_w g ∧ 80 ≤ th
  | None => True
  end.
Proof.
  intros Hle Hg Hh.
  assert (∀ g', min_tile_w g' = min_tile_w g → max_tile_w g' = max_tile_w g →
                grid_size g' = grid_size g → 80 ≤ tile_h g' →
                match grid_size (update_grid vw spacing g') with
                | Some (tw, th) => min_tile_w g ≤ tw ≤ max_tile_w g ∧ 80 ≤ th
                | None => True
                end) as Hup.
  { intros g' Hmin Hmax Hgs Hh'.
    destruct (update_grid_tile_width_bounded vw spacing g') as [H0 H1]; [lia|].
    destruct (decide (vw ≤ 0)) as [Hv|Hv].
    - rewrite H0 by done. by rewrite Hgs.
    - destruct H1 as (tw & -> & Htw); [lia|]. lia. }
  destruct e; cbn [handle]; unfold set_tile_height, set_preferred_tile_width, resizeEvent;
    apply Hup; cbn; try done; lia.
Qed.

(** X10. From its construction on, whatever heights and preferred widths
    are set and however the viewport is resized, the grid size of the
    list, once set, is between 260 and 420 wide and at least 80 high. *)
Theorem grid_size_always_in_bounds (events : list (event * Z * Z)) :
  match grid_size (run events init) with
  | Some (tile_w, tile_h) => 260 ≤ tile_w ≤ 420 ∧ 80 ≤ tile_h
  | None => True
  end.
Proof.
  assert (∀ g, min_tile_w g = 260 → max_tile_w g = 420 → 80 ≤ tile_h g →
               match grid_size g with
               | Some (tw, th) => 260 ≤ tw ≤ 420 ∧ 80 ≤ th
               | None => True
               end →
               match grid_size (run events g) with
               | Some (tw, th) => 260 ≤ tw ≤ 420 ∧ 80 ≤ th
               | None => True
               end) as H; [|by apply H].
  induction events as [|[[e vw] spacing] events IH]; intros g Hmin Hmax Hh Hg; [done|].
  cbn [run fold_left]. apply IH.
  - cbn. destruct (handle_fields e vw spacing g) as (-> & _). done.
  - cbn. destruct (handle_fields e vw spacing g) as (_ & -> & _). done.
  - cbn. destruct (handle_fields e vw spacing g) as (_ & _ & H & _). by apply H.
  - cbn. pose proof (handle_grid_size e vw spacing g) as H.
    rewrite Hmin, Hmax in H. apply H; [lia|done|done].
Qed.

End InventoryGridFacts.

Lemma update_grid_tile_width_bounded_witness :
  InventoryGrid.update_grid 0 10 InventoryGrid.init = InventoryGrid.init ∧
  ∃ tile_w,
    InventoryGrid.grid_size (InventoryGrid.update_grid 1000 10 InventoryGrid.init)
    = Some (tile_w, 150%Z) ∧ (260 ≤ tile_w ≤ 420)%Z.
Proof.
  assert (InventoryGrid.min_tile_w InventoryGrid.init
          ≤ InventoryGrid.max_tile_w InventoryGrid.init)%Z as Hle by (cbn; lia).
  split.
  - apply (update_grid_tile_width_bounded 0 10 InventoryGrid.init Hle). lia.
  - destruct (update_grid_tile_width_bounded 1000 10 InventoryGrid.init Hle) as [_ H].
    apply H. lia.
Defined.

(** ** SettingsPanel: the list widgets and the settings *)

Section SettingsPanelFacts.
Import SettingsPanel.
Local Open Scope Z_scope.

Lemma remove_first_delete (x : string) (l : list string) (i : nat) :
  NoDup l → l !! i = Some x → remove_first x l = delete i l.
Proof.
  revert i. induction l as [|y l IH]; intros i Hnd Hl; [done|].
  apply NoDup_cons in Hnd as [Hy Hnd]. cbn [remove_first].
  destruct i as [|i]; cbn in Hl.
  - injection Hl as ->. by rewrite decide_True.
  - rewrite decide_False.
    + cbn. f_equal. by apply IH.
    + intros ->. apply Hy. by eapply list_elem_of_lookup_2.
Qed.

Lemma insert_at_Permutation n x l : insert_at n x l ≡ₚ x :: l.
Proof.
  unfold insert_at. rewrite <- Permutation_middle. by rewrite take_drop.
Qed.

Lemma moved_Permutation n i x (l : list string) :
  l !! i = Some x → insert_at n x (delete i l) ≡ₚ l.
Proof.
  intros Hl. rewrite insert_at_Permutation. symmetry. by apply delete_Permutation.
Qed.

Lemma elem_of_delete_NoDup (l : list string) i x y :
  NoDup l → l !! i = Some x → y ∈ delete i l ↔ y ∈ l ∧ y ≠ x.
Proof.
  intros Hnd Hl. pose proof (delete_Permutation l i x Hl) as Hp.
  assert (y ∈ l ↔ y ∈ x :: delete i l) as Hiff by (by rewrite <- Hp).
  rewrite Hp in Hnd. apply NoDup_cons in Hnd as [Hx _].
  rewrite Hiff, elem_of_cons. split.
  - intros Hy. split; [auto|]. by intros ->.
  - intros [[?|?] ?]; done.
Qed.

(** X11. The list widgets keep showing the settings.  When the priority
    list widget shows the priority list and the exclude list widget the
    exclude set, without a name twice, then after a press of any of the
    five buttons they still do, and nothing is raised; and
    [self._settings.alter()] is called once when the press changed the
    priority list or the exclude set, and not at all when it did not. *)
Theorem buttons_keep_in_sync (b : press) (p : panel) :
  in_sync p → current_row b p →
  ∃ p', handle b p = (Fine, p') ∧ in_sync p' ∧
        (if decide (same_settings p p') then alterations p' = alterations p
         else alterations p' = S (alterations p)).
Proof.
  intros (Hshown & Hnd & Hnde & Hex) Hrow.
  destruct b as [text|row|up row|text|row]; cbn [handle current_row] in *.
  - (* priority_add *)
    eexists. split; [done|]. unfold priority_add.
    destruct (bool_decide (strip text = EmptyString)) eqn:E1; cbn [orb].
    { split; [done|]. by rewrite decide_True. }
    destruct (bool_decide (strip text ∈ priority p)) eqn:E2.
    { split; [done|]. by rewrite decide_True. }
    apply bool_decide_eq_false in E2.
    split.
    + split; cbn; [by rewrite Hshown|]. split; [|done].
      apply NoDup_app. split; [done|]. split; [|apply NoDup_singleton].
      intros x Hx Hx'. apply list_elem_of_singleton in Hx'. by subst.
    + rewrite decide_False; [done|]. intros [H _]. cbn in H.
      apply (f_equal length) in H. rewrite length_app in H. cbn in H. lia.
  - (* priority_delete *)
    eexists. split; [done|]. unfold priority_delete.
    case_bool_decide as E1.
    { split; [done|]. by rewrite decide_True. }
    destruct (priority_list p !! Z.to_nat row) as [name|] eqn:El.
    2:{ split; [done|]. by rewrite decide_True. }
    rewrite Hshown in El.
    rewrite bool_decide_eq_true_2 by (by eapply list_elem_of_lookup_2).
    rewrite (remove_first_delete _ _ _ Hnd El).
    split.
    + split; cbn; [by rewrite Hshown|]. split; [|done].
      rewrite (delete_Permutation _ _ _ El) in Hnd. by apply NoDup_cons in Hnd as [_ ?].
    + rewrite decide_False; [done|]. intros [H _]. cbn in H.
      apply (f_equal length) in H. rewrite length_delete in H by eauto.
      apply lookup_lt_Some in El. lia.
  - (* priority_move *)
    unfold priority_move.
    case_bool_decide as E1.
    { eexists. split; [done|]. split; [done|]. by rewrite decide_True. }
    set (new_row := if up then row - 1 else row + 1).
    destruct (bool_decide (new_row < 0) || bool_decide (new_row >= Z.of_nat (length (priority_list p))))
      eqn:E2.
    { eexists. split; [done|]. split; [done|]. by rewrite decide_True. }
    apply orb_false_iff in E2 as [E2 E3].
    apply bool_decide_eq_false in E2, E3.
    destruct (lookup_lt_is_Some_2 (priority_list p) (Z.to_nat row)) as [name El]; [lia|].
    rewrite El. cbn [priority exclude alterations priority_list exclude_list].
    rewrite Hshown in *. rewrite bool_decide_eq_true_2 by lia.
    eexists. split; [done|]. split.
    + split; cbn; [done|]. split; [|done].
      by rewrite (moved_Permutation _ _ _ _ El).
    + rewrite decide_False; [done|]. intros [H _]. cbn in H.
      assert (Z.to_nat new_row ≠ Z.to_nat row) as Hne by (unfold new_row; destruct up; lia).
      assert (insert_at (Z.to_nat new_row) name (delete (Z.to_nat row) (priority p))
              !! Z.to_nat new_row = Some name) as Hat.
      { unfold insert_at. rewrite lookup_app_r by (rewrite length_take; lia).
        rewrite length_take, length_delete by eauto.
        replace (Z.to_nat new_row - _)%nat with 0%nat; [done|].
        apply lookup_lt_Some in El. lia. }
      rewrite H in Hat.
      apply Hne. exact (NoDup_lookup _ _ _ _ Hnd Hat El).
  - (* exclude_add *)
    eexists. split; [done|]. unfold exclude_add.
    destruct (bool_decide (strip text = EmptyString)) eqn:E1; cbn [orb].
    { split; [done|]. by rewrite decide_True. }
    destruct (bool_decide (strip text ∈ exclude p)) eqn:E2.
    { split; [done|]. by rewrite decide_True. }
    apply bool_decide_eq_false in E2.
    split.
    + split; cbn; [done|]. split; [done|]. split.
      * apply NoDup_app. split; [done|]. split; [|apply NoDup_singleton].
        intros x Hx Hx'. apply list_elem_of_singleton in Hx'. subst.
        by apply Hex in Hx.
      * intros name. rewrite elem_of_app, list_elem_of_singleton, Hex. set_solver.
    + rewrite decide_False; [done|]. intros [_ H]. cbn in H. set_solver.
  - (* exclude_delete *)
    eexists. split; [done|]. unfold exclude_delete.
    case_bool_decide as E1.
    { split; [done|]. by rewrite decide_True. }
    destruct (exclude_list p !! Z.to_nat row) as [name|] eqn:El.
    2:{ split; [done|]. by rewrite decide_True. }
    assert (name ∈ exclude p) as Hin by (apply Hex; by eapply list_elem_of_lookup_2).
    rewrite bool_decide_eq_true_2 by done.
    split.
    + split; cbn; [done|]. split; [done|]. split.
      * rewrite (delete_Permutation _ _ _ El) in Hnde.
        by apply NoDup_cons in Hnde as [_ ?].
      * intros x. rewrite (elem_of_delete_NoDup _ _ _ _ Hnde El), Hex. set_solver.
    + rewrite decide_False; [done|]. intros [_ H]. cbn in H. set_solver.
Qed.

Lemma length_delete_at (l : list string) r x :
  l !! r = Some x → length (delete r l) = (length l - 1)%nat.
Proof. intros H. rewrite length_delete by eauto. done. Qed.

Lemma moved_lookup_new (l : list string) (r n : nat) x :
  l !! r = Some x → (n < length l)%nat → insert_at n x (delete r l) !! n = Some x.
Proof.
  intros Hr Hn. pose proof (lookup_lt_Some _ _ _ Hr). pose proof (length_delete_at l r x Hr).
  unfold insert_at. rewrite lookup_app_r by (rewrite length_take; lia).
  rewrite length_take. by replace (n - _)%nat with 0%nat by lia.
Qed.

Lemma moved_up_lookup_old (l : list string) (r : nat) x :
  l !! S r = Some x → insert_at r x (delete (S r) l) !! S r = l !! r.
Proof.
  intros Hr. pose proof (lookup_lt_Some _ _ _ Hr). pose proof (length_delete_at l _ x Hr).
  unfold insert_at. rewrite lookup_app_r by (rewrite length_take; lia).
  rewrite length_take. replace (S r - _)%nat with 1%nat by lia.
  rewrite lookup_cons. rewrite lookup_drop, Nat.add_0_r. by rewrite list_lookup_delete_lt by lia.
Qed.

Lemma moved_down_lookup_old (l : list string) (r : nat) x :
  l !! r = Some x → (S r < length l)%nat → insert_at (S r) x (delete r l) !! r = l !! S r.
Proof.
  intros Hr Hn. pose proof (length_delete_at l _ x Hr).
  unfold insert_at. rewrite lookup_app_l by (rewrite length_take; lia).
  rewrite lookup_take_lt by lia. by rewrite list_lookup_delete_ge by lia.
Qed.

Lemma moved_lookup_other (l : list string) (r n i : nat) x :
  l !! r = Some x → (n < length l)%nat → n = S r ∨ r = S n → i ≠ r → i ≠ n →
  insert_at n x (delete r l) !! i = l !! i.
Proof.
  intros Hr Hn Hadj Hi1 Hi2.
  pose proof (lookup_lt_Some _ _ _ Hr). pose proof (length_delete_at l _ x Hr).
  unfold insert_at.
  destruct (decide (i < n)%nat) as [Hlt|Hge].
  - rewrite lookup_app_l by (rewrite length_take; lia).
    rewrite lookup_take_lt by lia. rewrite list_lookup_delete_lt by lia. done.
  - rewrite lookup_app_r by (rewrite length_take; lia).
    rewrite length_take. replace (n `min` length (delete r l))%nat with n by lia.
    destruct (i - n)%nat as [|d] eqn:Ed; [lia|]. rewrite lookup_cons.
    rewrite lookup_drop. rewrite list_lookup_delete_ge by lia. f_equal. lia.
Qed.

(** X12. Moving a name changes its place and nothing else: after
    [priority_move] of a row that has a neighbour on the side asked for,
    the priority list has the two names exchanged and every other name
    where it was. *)
Theorem priority_move_swaps (up : bool) (row : Z) (p p' : panel) :
  let new_row := if up then row - 1 else row + 1 in
  priority_list p = priority p →
  0 ≤ row < Z.of_nat (length (priority p)) → 0 ≤ new_row < Z.of_nat (length (priority p)) →
  priority_move up row p = (Fine, p') →
  priority p' !! Z.to_nat new_row = priority p !! Z.to_nat row ∧
  priority p' !! Z.to_nat row = priority p !! Z.to_nat new_row ∧
  (∀ i, i ≠ Z.to_nat row → i ≠ Z.to_nat new_row → priority p' !! i = priority p !! i) ∧
  priority_list p' = priority p'.
Proof.
  intros new_row Hshown Hrow Hnew. unfold priority_move.
  rewrite bool_decide_eq_false_2 by lia. fold new_row.
  rewrite Hshown.
  rewrite bool_decide_eq_false_2 by lia. rewrite bool_decide_eq_false_2 by lia.
  cbn [orb].
  destruct (lookup_lt_is_Some_2 (priority p) (Z.to_nat row)) as [name El]; [lia|].
  rewrite El. cbn [priority exclude alterations priority_list exclude_list].
  rewrite bool_decide_eq_true_2 by lia. intros [= <-]. cbn [priority priority_list].
  assert (Z.to_nat new_row < length (priority p))%nat as Hn by lia.
  split; [|split; [|split; [|done]]].
  - by apply moved_lookup_new.
  - unfold new_row in *. destruct up.
    + replace (Z.to_nat row) with (S (Z.to_nat (row - 1))) in * by lia.
      by apply moved_up_lookup_old.
    + replace (Z.to_nat (row + 1)) with (S (Z.to_nat row)) in * by lia.
      by apply moved_down_lookup_old.
  - intros i Hi1 Hi2. apply moved_lookup_other; try done.
    unfold new_row. destruct up; lia.
Qed.

(** X13. Moving a name up and then, from the row it has come to, down
    again gives back the priority list and the list widget as they
    were. *)
Theorem priority_move_up_down (row : Z) (p p1 : panel) :
  priority_list p = priority p →
  0 < row < Z.of_nat (length (priority p)) →
  priority_move true row p = (Fine, p1) →
  ∃ p2, priority_move false (row - 1) p1 = (Fine, p2) ∧
        priority p2 = priority p ∧ priority_list p2 = priority_list p ∧
        exclude p2 = exclude p ∧ exclude_list p2 = exclude_list p.
Proof.
  intros Hshown Hrow H1.
  destruct (priority_move_swaps true row p p1 Hshown ltac:(lia) ltac:(lia) H1)
    as (Ha & Hb & Hc & Hs1).
  assert (length (priority p1) = length (priority p)) as Hlen.
  { revert H1. unfold priority_move.
    rewrite bool_decide_eq_false_2 by lia. rewrite Hshown.
    rewrite bool_decide_eq_false_2 by lia. rewrite bool_decide_eq_false_2 by lia.
    cbn [orb].
    destruct (lookup_lt_is_Some_2 (priority p) (Z.to_nat row)) as [name El]; [lia|].
    rewrite El. cbn [priority exclude alterations priority_list exclude_list].
    rewrite bool_decide_eq_true_2 by lia. intros [= <-]. cbn.
    unfold insert_at. rewrite length_app. cbn. rewrite length_take, length_drop.
    rewrite length_delete by eauto. lia. }
  assert (exclude p1 = exclude p ∧ exclude_list p1 = exclude_list p) as [He Hel].
  { revert H1. unfold priority_move. repeat case_match; by intros [= <-]. }
  assert (∃ p2, priority_move false (row - 1) p1 = (Fine, p2)) as [p2 H2].
  { unfold priority_move. rewrite bool_decide_eq_false_2 by lia. rewrite Hs1.
    rewrite bool_decide_eq_false_2 by lia. rewrite bool_decide_eq_false_2 by lia.
    cbn [orb].
    destruct (lookup_lt_is_Some_2 (priority p1) (Z.to_nat (row - 1))) as [name El]; [lia|].
    rewrite El. cbn [priority exclude alterations priority_list exclude_list].
    rewrite bool_decide_eq_true_2 by lia. eauto. }
  exists p2. split; [done|].
  destruct (priority_move_swaps false (row - 1) p1 p2 Hs1 ltac:(lia) ltac:(lia) H2)
    as (Ha2 & Hb2 & Hc2 & Hs2).
  assert (length (priority p2) = length (priority p1)) as Hlen2.
  { revert H2. unfold priority_move.
    rewrite bool_decide_eq_false_2 by lia. rewrite Hs1.
    rewrite bool_decide_eq_false_2 by lia. rewrite bool_decide_eq_false_2 by lia.
    cbn [orb].
    destruct (lookup_lt_is_Some_2 (priority p1) (Z.to_nat (row - 1))) as [name El]; [lia|].
    rewrite El. cbn [priority exclude alterations priority_list exclude_list].
    rewrite bool_decide_eq_true_2 by lia. intros [= <-]. cbn.
    unfold insert_at. rewrite length_app. cbn. rewrite length_take, length_drop.
    rewrite length_delete by eauto. lia. }
  assert (exclude p2 = exclude p1 ∧ exclude_list p2 = exclude_list p1) as [He2 Hel2].
  { revert H2. unfold priority_move. repeat case_match; by intros [= <-]. }
  assert (priority p2 = priority p) as Hp.
  { apply list_eq. intros i.
    replace (row - 1 + 1) with row in * by lia.
    destruct (decide (i = Z.to_nat row)) as [->|H1'].
    { by rewrite Ha2, Ha. }
    destruct (decide (i = Z.to_nat (row - 1))) as [->|H2'].
    { by rewrite Hb2, Hb. }
    rewrite Hc2 by done. by apply Hc. }
  split; [done|]. split; [by rewrite Hs2, Hp|]. split; congruence.
Qed.

End SettingsPanelFacts.

Lemma buttons_keep_in_sync_witness :
  let p := SettingsPanel.Panel ["Apex"; "Rust"; "Dota"] {["Chess"]} 0
                               ["Apex"; "Rust"; "Dota"] ["Chess"] in
  SettingsPanel.in_sync p ∧
  ∃ p', SettingsPanel.handle (SettingsPanel.PriorityMove true 2) p = (SettingsPanel.Fine, p')
        ∧ SettingsPanel.in_sync p'.
Proof.
  intros p.
  assert (SettingsPanel.in_sync p) as Hs.
  { split; [reflexivity|]. split; [|split].
    - repeat (apply NoDup_cons; split; [set_solver|]). apply NoDup_nil_2.
    - apply NoDup_singleton.
    - intros name. cbn. set_solver. }
  split; [exact Hs|].
  destruct (buttons_keep_in_sync (SettingsPanel.PriorityMove true 2) p Hs)
    as (p' & E & Hs' & _); [cbn; lia|].
  by exists p'.
Defined.

Lemma priority_move_swaps_witness :
  let p := SettingsPanel.Panel ["Apex"; "Rust"; "Dota"] ∅ 0 ["Apex"; "Rust"; "Dota"] [] in
  SettingsPanel.priority (SettingsPanel.priority_move true 2 p).2 !! 1%nat = Some "Dota"%string ∧
  SettingsPanel.priority (SettingsPanel.priority_move true 2 p).2 !! 2%nat = Some "Rust"%string.
Proof.
  intros p.
  destruct (priority_move_swaps true 2 p (SettingsPanel.priority_move true 2 p).2)
    as (Ha & Hb & _); [reflexivity|cbn; lia|cbn; lia|reflexivity|].
  split; [exact Ha|exact Hb].
Defined.

Lemma priority_move_up_down_witness :
  let p := SettingsPanel.Panel ["Apex"; "Rust"; "Dota"] ∅ 0 ["Apex"; "Rust"; "Dota"] [] in
  ∃ p2, SettingsPanel.priority_move false 1 (SettingsPanel.priority_move true 2 p).2
        = (SettingsPanel.Fine, p2) ∧
        SettingsPanel.priority p2 = ["Apex"; "Rust"; "Dota"].
Proof.
  intros p.
  destruct (priority_move_up_down 2 p (SettingsPanel.priority_move true 2 p).2)
    as (p2 & E & Hp & _); [reflexivity|cbn; lia|reflexivity|].
  exists p2. split; [exact E|exact Hp].
Defined.
